(** * JiWER transforms: a shallow embedding of [jiwer/transforms.py]

    The Python module defines a family of callable text transforms
    ([AbstractTransform] and its subclasses) and [Compose], which threads an
    input through a list of transforms.  This file embeds the module and
    states its contract.

    Conventions of the embedding.
    - A Python [str] is a list of Unicode code points ([N]).
    - A Python call returns an [outcome]: a value, or a raised exception.
      [Unmodelled] marks the places where this embedding stops: a list that
      holds something other than strings, in the methods that use their
      elements as strings (they are annotated [List[str]]), and
      regular-expression syntax outside the fragment the module's own
      patterns use.
    - [re] is modelled as CPython's backtracking matcher (3.7 and later) on
      that fragment, with a parser from pattern text. *)

From Stdlib Require Import String Ascii.
From Stdlib Require Import List NArith ZArith Bool Arith Lia.
Import ListNotations.

Set Warnings "-register-all".

(** ** Python strings *)

Module Py.

Definition char := N.
Definition str := list char.

(** [u "..."] is the Python literal with the same ASCII text. *)
Definition u (s : string) : str := map N_of_ascii (list_ascii_of_string s).

Definition ceq (a b : char) : bool := N.eqb a b.
Arguments ceq (a b)%_N_scope.

Fixpoint str_eqb (a b : str) : bool :=
  match a, b with
  | [], [] => true
  | x :: a', y :: b' => ceq x y && str_eqb a' b'
  | _, _ => false
  end.

(** [len(s) >= 1] *)
Definition nonempty (s : str) : bool :=
  match s with [] => false | _ :: _ => true end.

(** [string.whitespace]: [' \t\n\r\x0b\x0c'], in that order. *)
Definition string_whitespace : str := [32; 9; 10; 13; 11; 12]%N.

(** [str.isspace] on one code point, which is also what [\s] matches in a
    [str] pattern and what [str.strip()] removes: the code points whose
    bidirectional class is WS, B or S, or whose category is Zs. *)
Definition isspace (c : char) : bool :=
  ((9 <=? c) && (c <=? 13) || (28 <=? c) && (c <=? 32)
   || (c =? 133) || (c =? 160) || (c =? 5760)
   || (8192 <=? c) && (c <=? 8202)
   || (c =? 8232) || (c =? 8233) || (c =? 8239) || (c =? 8287)
   || (c =? 12288))%N.

(** ASCII letters and digits, the characters [re] treats specially after a
    backslash. *)
Definition ascii_alnum (c : char) : bool :=
  ((48 <=? c) && (c <=? 57) || (65 <=? c) && (c <=? 90)
   || (97 <=? c) && (c <=? 122))%N.

Fixpoint drop_while (p : char -> bool) (s : str) : str :=
  match s with
  | [] => []
  | c :: tl => if p c then drop_while p tl else s
  end.

(** [s.lstrip()], [s.rstrip()], [s.strip()] *)
Definition lstrip (s : str) : str := drop_while isspace s.
Definition rstrip (s : str) : str := rev (drop_while isspace (rev s)).
Definition strip (s : str) : str := rstrip (lstrip s).

(** [s.startswith(p)] *)
Fixpoint starts_with (p s : str) : bool :=
  match p, s with
  | [], _ => true
  | x :: p', y :: s' => ceq x y && starts_with p' s'
  | _ :: _, [] => false
  end.

(** The scan of [s.replace(old, new)] for a non-empty [old]: occurrences are
    taken leftmost first and do not overlap.  [skip] counts the characters of
    the occurrence just replaced that are still to be passed over. *)
Fixpoint replace_scan (old new s : str) (skip : nat) : str :=
  match skip, s with
  | _, [] => []
  | S k, _ :: tl => replace_scan old new tl k
  | O, c :: tl =>
      if starts_with old s
      then new ++ replace_scan old new tl (length old - 1)
      else c :: replace_scan old new tl 0
  end.

(** [s.replace(old, new)]; an empty [old] matches before every character and
    at the end. *)
Definition str_replace (s old new : str) : str :=
  match old with
  | [] => new ++ flat_map (fun c => c :: new) s
  | _ :: _ => replace_scan old new s 0
  end.

(** The scan of [s.split(sep)] for a non-empty [sep]; [cur] is the piece
    being collected. *)
Fixpoint split_scan (sep s : str) (skip : nat) (cur : str) : list str :=
  match skip, s with
  | _, [] => [cur]
  | S k, _ :: tl => split_scan sep tl k cur
  | O, c :: tl =>
      if starts_with sep s
      then cur :: split_scan sep tl (length sep - 1) []
      else split_scan sep tl 0 (cur ++ [c])
  end.

(** [sep.join(l)] *)
Fixpoint str_join (sep : str) (l : list str) : str :=
  match l with
  | [] => []
  | [x] => x
  | x :: tl => x ++ sep ++ str_join sep tl
  end.

End Py.
Import Py.

(** ** Outcomes of a call *)

Inductive exn := ValueError | NotImplementedError | IndexError | TypeError.

Inductive outcome (A : Type) : Type :=
| Ok (a : A)
| Raise (e : exn)
| Unmodelled.

Arguments Ok {A} a.
Arguments Raise {A} e.
Arguments Unmodelled {A}.

Definition bind {A B} (m : outcome A) (k : A -> outcome B) : outcome B :=
  match m with
  | Ok a => k a
  | Raise e => Raise e
  | Unmodelled => Unmodelled
  end.

Notation "x <- m ;; k" := (bind m (fun x => k))
  (at level 61, m at next level, right associativity).

(** A comprehension [[f(x) for x in l]]: elements are evaluated in order and
    the first exception ends it. *)
Fixpoint for_each {A B} (f : A -> outcome B) (l : list A) : outcome (list B) :=
  match l with
  | [] => Ok []
  | x :: tl => y <- f x ;; ys <- for_each f tl ;; Ok (y :: ys)
  end.

(** [s.split(sep)] with a [str] separator; the empty separator is refused
    with [ValueError]. *)
Definition str_split (s sep : str) : outcome (list str) :=
  match sep with
  | [] => Raise ValueError
  | _ :: _ => Ok (split_scan sep s 0 [])
  end.

(** ** Python values that reach a transform *)

Inductive value :=
| VStr (s : str)
| VList (l : list value)
| VNone
| VInt (z : Z).

Definition as_str (v : value) : option str :=
  match v with VStr s => Some s | _ => None end.

(** The elements of a list when all of them are strings. *)
Fixpoint strs_of (l : list value) : option (list str) :=
  match l with
  | [] => Some []
  | v :: tl =>
      match as_str v, strs_of tl with
      | Some s, Some ss => Some (s :: ss)
      | _, _ => None
      end
  end.

Definition VStrs (l : list str) : value := VList (map VStr l).
Definition VTokens (l : list (list str)) : value := VList (map VStrs l).

(** ** Regular expressions: the fragment of [re] the module uses *)

Module Sre.

(** What one character of the subject is tested against. *)
Inductive item :=
| ILit (c : char)                         (* a literal character *)
| ISet (negate : bool) (members : str)    (* [[...]] and [[^...]] *)
| ISpace.                                 (* [\s] *)

Inductive atom :=
| One (i : item)
| Many0 (i : item)                        (* [i*], greedy *)
| Many1 (i : item)                        (* [i+], greedy *)
| Boundary.                               (* [\b] *)

Definition regex := list atom.

Definition item_matches (i : item) (c : char) : bool :=
  match i with
  | ILit x => ceq x c
  | ISet negate members => xorb negate (existsb (ceq c) members)
  | ISpace => isspace c
  end.

(** *** Pattern text to regex *)

Inductive mode :=
| Top
| Esc                                     (* after a backslash *)
| SetOpen                                 (* after [[] *)
| InSet (negate : bool) (members : str)
| SetEsc (negate : bool) (members : str). (* after a backslash in a set *)

(** Characters with a meaning of their own outside a set that the fragment
    does not cover. *)
Definition other_meta : str := u ".^$?{}()|".

Definition is_in (c : char) (l : str) : bool := existsb (ceq c) l.

(** One character of pattern text.  [acc] holds the atoms read so far, last
    one first; a quantifier rewrites the atom before it. *)
Definition parse_step (st : mode * list atom) (c : char)
  : option (mode * list atom) :=
  let (m, acc) := st in
  match m with
  | Top =>
      if ceq c 92 then Some (Esc, acc)
      else if ceq c 91 then Some (SetOpen, acc)
      else if ceq c 42 then
        match acc with One i :: acc' => Some (Top, Many0 i :: acc') | _ => None end
      else if ceq c 43 then
        match acc with One i :: acc' => Some (Top, Many1 i :: acc') | _ => None end
      else if is_in c other_meta then None
      else Some (Top, One (ILit c) :: acc)
  | Esc =>
      if ceq c 98 then Some (Top, Boundary :: acc)
      else if ceq c 115 then Some (Top, One ISpace :: acc)
      else if ascii_alnum c then None
      else Some (Top, One (ILit c) :: acc)
  | SetOpen =>
      if ceq c 94 then Some (InSet true [], acc)
      else if ceq c 92 then Some (SetEsc false [], acc)
      else if ceq c 45 then None
      else Some (InSet false [c], acc)
  | InSet negate members =>
      if ceq c 93 then
        match members with
        | [] => Some (InSet negate [c], acc)
        | _ :: _ => Some (Top, One (ISet negate members) :: acc)
        end
      else if ceq c 92 then Some (SetEsc negate members, acc)
      else if ceq c 45 then None
      else Some (InSet negate (members ++ [c]), acc)
  | SetEsc negate members =>
      if ascii_alnum c then None
      else Some (InSet negate (members ++ [c]), acc)
  end.

Fixpoint parse_from (st : mode * list atom) (p : str) : option regex :=
  match p with
  | [] => match fst st with Top => Some (rev (snd st)) | _ => None end
  | c :: tl =>
      match parse_step st c with
      | Some st' => parse_from st' tl
      | None => None
      end
  end.

(** [None]: the pattern is malformed or lies outside the fragment. *)
Definition parse (p : str) : option regex := parse_from (Top, []) p.

(** [re.escape]: a backslash before each special character. *)
Definition special_chars : str :=
  u "()[]{}?*+-|^$\.&~# " ++ [9; 10; 13; 11; 12]%N.

Definition escape (s : str) : str :=
  flat_map (fun c => if is_in c special_chars then [92%N; c] else [c]) s.

(** A replacement template: one without a backslash stands for itself. *)
Definition template (repl : str) : option str :=
  if is_in 92%N repl then None else Some repl.

Section Matcher.

(** [str.isalnum] on one code point, from the Unicode database. *)
Variable isalnum : char -> bool.

(** [\w] *)
Definition isword (c : char) : bool := isalnum c || ceq c 95.

Definition word_at (c : option char) : bool :=
  match c with Some x => isword x | None => false end.

(** [\b] holds between [prev] and the next character of [s]. *)
Definition at_boundary (prev : option char) (s : str) : bool :=
  xorb (word_at prev) (word_at (hd_error s)).

(** The backtracking match of [r] at the current position: [prev] is the
    character before it, [s] the rest of the subject, [n] the number of
    characters taken since the start of the match.  The result is the length
    of the first match in backtracking order; with [adv] an empty match is
    refused and the search backtracks. *)
Fixpoint match_here (r : regex) (adv : bool) (prev : option char) (s : str)
    (n : nat) {struct r} : option nat :=
  match r with
  | [] => if adv && (n =? 0) then None else Some n
  | One i :: r' =>
      match s with
      | c :: tl =>
          if item_matches i c then match_here r' adv (Some c) tl (S n) else None
      | [] => None
      end
  | Boundary :: r' =>
      if at_boundary prev s then match_here r' adv prev s n else None
  | Many0 i :: r' =>
      (fix more (prev : option char) (s : str) (n : nat) {struct s} :=
         match s with
         | c :: tl =>
             if item_matches i c then
               match more (Some c) tl (S n) with
               | Some m => Some m
               | None => match_here r' adv prev s n
               end
             else match_here r' adv prev s n
         | [] => match_here r' adv prev s n
         end) prev s n
  | Many1 i :: r' =>
      match s with
      | c :: tl =>
          if item_matches i c then
            (fix more (prev : option char) (s : str) (n : nat) {struct s} :=
               match s with
               | c :: tl =>
                   if item_matches i c then
                     match more (Some c) tl (S n) with
                     | Some m => Some m
                     | None => match_here r' adv prev s n
                     end
                   else match_here r' adv prev s n
               | [] => match_here r' adv prev s n
               end) (Some c) tl (S n)
          else None
      | [] => None
      end
  end.

Definition match_at (r : regex) (adv : bool) (prev : option char) (s : str)
  : option nat := match_here r adv prev s 0.

(** The loop of [re.sub] over the subject.  At each position the pattern is
    tried; a match is replaced by [repl] and the scan resumes after it
    ([skip] counts its characters still to pass over), otherwise one character
    is copied.  After an empty match the same position is tried once more for
    a non-empty one. *)
Fixpoint sub_scan (r : regex) (repl : str) (prev : option char) (s : str)
    (skip : nat) {struct s} : str :=
  match skip with
  | S k =>
      match s with
      | [] => []
      | c :: tl => sub_scan r repl (Some c) tl k
      end
  | O =>
      let pass :=
        match s with
        | [] => []
        | c :: tl => c :: sub_scan r repl (Some c) tl 0
        end in
      let take (k : nat) :=
        match s with
        | [] => repl
        | c :: tl => repl ++ sub_scan r repl (Some c) tl k
        end in
      match match_at r false prev s with
      | None => pass
      | Some (S k) => take k
      | Some O =>
          repl ++ match match_at r true prev s with
                  | Some (S k) => take k
                  | _ => pass
                  end
      end
  end.

Definition sub (r : regex) (repl s : str) : str := sub_scan r repl None s 0.

(** [re.sub(pattern, repl, s)] *)
Definition re_sub (pattern repl s : str) : outcome str :=
  match parse pattern, template repl with
  | Some r, Some t => Ok (sub r t s)
  | _, _ => Unmodelled
  end.

End Matcher.

End Sre.
Import Sre.

(** ** The transforms *)

(** A transform is an object with the two methods [process_string] and
    [process_list]; [self] in a method body is the record's own field. *)
Record AbstractTransform := {
  process_string : str -> outcome value;
  process_list : list value -> outcome value
}.

(** The methods are embedded on the lists they are annotated for,
    [inp: List[str]]. *)
Definition on_strs (f : list str -> outcome value) (inp : list value)
  : outcome value :=
  match strs_of inp with
  | Some l => f l
  | None => Unmodelled
  end.
Arguments on_strs : simpl never.

(** [AbstractTransform.process_list]:
    [[self.process_string(s) for s in inp]] *)
Definition default_process_list (process_string : str -> outcome value)
  : list value -> outcome value :=
  on_strs (fun inp => vs <- for_each process_string inp ;; Ok (VList vs)).

(** A subclass that defines [process_string] only. *)
Definition derive (process_string : str -> outcome value) : AbstractTransform :=
  {| process_string := process_string;
     process_list := default_process_list process_string |}.

(** The base class itself: [process_string] raises [NotImplementedError]. *)
Definition abstract_transform : AbstractTransform :=
  derive (fun _ => Raise NotImplementedError).

(** [AbstractTransform.__call__] *)
Definition call (t : AbstractTransform) (sentences : value) : outcome value :=
  match sentences with
  | VStr s => process_string t s
  | VList l => process_list t l
  | _ => Raise ValueError
  end.

(** [Compose(transforms).__call__] *)
Definition Compose (transforms : list AbstractTransform) (text : value)
  : outcome value :=
  fold_left (fun text tr => v <- text ;; call tr v) transforms (Ok text).

(** [v[0]] *)
Definition item0 (v : value) : outcome value :=
  match v with
  | VList (x :: _) => Ok x
  | VStr (c :: _) => Ok (VStr [c])
  | VList [] | VStr [] => Raise IndexError
  | VNone | VInt _ => Raise TypeError
  end.

(** [v != ""] *)
Definition not_empty_str (v : value) : bool :=
  match v with VStr [] => false | _ => true end.

(** *** BaseRemoveTransform *)

Definition BaseRemoveTransform_process_string (tokens_to_remove : list str)
    (replace_token : str) (s : str) : outcome value :=
  Ok (VStr (fold_left (fun s w => str_replace s w replace_token)
                      tokens_to_remove s)).

Definition BaseRemoveTransform (tokens_to_remove : list str)
    (replace_token : str) : AbstractTransform :=
  let ps := BaseRemoveTransform_process_string tokens_to_remove replace_token in
  {| process_string := ps;
     process_list :=
       on_strs (fun inp => vs <- for_each ps inp ;; Ok (VList vs)) |}.

(** *** ReduceToListOfListOfWords, ReduceToListOfListOfChars *)

Definition default_word_delimiter : str := u " ".

Definition ReduceToListOfListOfWords_process_string (word_delimiter s : str)
  : outcome value :=
  ws <- str_split s word_delimiter ;;
  Ok (VTokens [filter nonempty ws]).

(** The loop shared by the two reductions: the first element of each
    sentence's [process_string] is appended to [sentence_collection]. *)
Definition collect_sentences (process_string : str -> outcome value)
    (inp : list str) : outcome (list value) :=
  fold_left
    (fun acc sentence =>
       sentence_collection <- acc ;;
       r <- process_string sentence ;;
       list_of_words <- item0 r ;;
       Ok (sentence_collection ++ [list_of_words]))
    inp (Ok []).

Definition reduce_process_list (process_string : str -> outcome value)
    (inp : list str) : outcome value :=
  sentence_collection <- collect_sentences process_string inp ;;
  if length sentence_collection =? 0 then Ok (VList [VList []])
  else Ok (VList sentence_collection).

Definition ReduceToListOfListOfWords (word_delimiter : str)
  : AbstractTransform :=
  let ps := ReduceToListOfListOfWords_process_string word_delimiter in
  {| process_string := ps; process_list := on_strs (reduce_process_list ps) |}.

Definition ReduceToListOfListOfChars_process_string (s : str) : outcome value :=
  Ok (VTokens [map (fun w => [w]) s]).

Definition ReduceToListOfListOfChars : AbstractTransform :=
  {| process_string := ReduceToListOfListOfChars_process_string;
     process_list :=
       on_strs (reduce_process_list ReduceToListOfListOfChars_process_string) |}.

(** *** ReduceToSingleSentence *)

(** [len(v)]: strings and lists have a length, [None] and integers raise
    [TypeError]. *)
Definition py_len (v : value) : outcome nat :=
  match v with
  | VStr s => Ok (length s)
  | VList l => Ok (length l)
  | VNone | VInt _ => Raise TypeError
  end.

(** [[i for i in inp if keep(i)]] on a list of any values *)
Fixpoint select_values (keep : value -> outcome bool) (inp : list value)
  : outcome (list value) :=
  match inp with
  | [] => Ok []
  | i :: tl =>
      b <- keep i ;;
      rest <- select_values keep tl ;;
      Ok (if b then i :: rest else rest)
  end.

(** [sep.join(l)]: [TypeError] when an item is not a string. *)
Definition join_values (sep : str) (l : list value) : outcome str :=
  match strs_of l with
  | Some ss => Ok (str_join sep ss)
  | None => Raise TypeError
  end.

(** [process_list] uses nothing of its elements but [len] and [join], so
    it is embedded on every list. *)
Definition ReduceToSingleSentence (word_delimiter : str) : AbstractTransform :=
  {| process_string := fun s => Ok (VStr s);
     process_list := fun inp =>
       filtered_inp <-
         select_values (fun i => n <- py_len i ;; Ok (1 <=? n)) inp ;;
       if length filtered_inp =? 0 then Ok (VList [])
       else
         sentence <- join_values word_delimiter filtered_inp ;;
         Ok (VList [VStr sentence]) |}.

(** *** Strip, RemoveEmptyStrings *)

Definition Strip : AbstractTransform :=
  derive (fun s => Ok (VStr (strip s))).

(** [[s for s in inp if keep(s)]] *)
Fixpoint select (keep : str -> outcome bool) (inp : list str)
  : outcome (list str) :=
  match inp with
  | [] => Ok []
  | s :: tl =>
      b <- keep s ;;
      rest <- select keep tl ;;
      Ok (if b then s :: rest else rest)
  end.

Definition RemoveEmptyStrings : AbstractTransform :=
  let ps := fun s => Ok (VStr (strip s)) in
  {| process_string := ps;
     process_list := on_strs (fun inp =>
       l <- select (fun s => r <- ps s ;; Ok (not_empty_str r)) inp ;;
       Ok (VStrs l)) |}.

(** *** RemoveWhiteSpace *)

Definition RemoveWhiteSpace (replace_by_space : bool) : AbstractTransform :=
  let characters := map (fun c => [c]) string_whitespace in
  let replace_token := if replace_by_space then u " " else u "" in
  BaseRemoveTransform characters replace_token.

(** *** Dictionaries as the list of their items, in insertion order *)

Fixpoint dict_set (d : list (str * str)) (k v : str) : list (str * str) :=
  match d with
  | [] => [(k, v)]
  | (k', v') :: tl =>
      if str_eqb k' k then (k', v) :: tl else (k', v') :: dict_set tl k v
  end.

Section Transforms.

(** [str.isalnum] on one code point, [str.lower], [str.upper], and the code
    points whose Unicode category starts with P (in the order the set built
    from them is listed): tables of the Unicode database. *)
Variable isalnum : char -> bool.
Variables str_lower str_upper : str -> str.
Variable punctuation : list char.

Definition str_value (o : outcome str) : outcome value := s <- o ;; Ok (VStr s).

(** A chain of [s = re.sub(key, value, s)] over the items of a mapping. *)
Definition sub_each (pattern_of : str -> str) (substitutions : list (str * str))
    (s : str) : outcome str :=
  fold_left
    (fun acc kv => s <- acc ;; re_sub isalnum (pattern_of (fst kv)) (snd kv) s)
    substitutions (Ok s).

(** *** SubstituteRegexes, SubstituteWords, RemoveSpecificWords *)

Definition SubstituteRegexes (substitutions : list (str * str))
  : AbstractTransform :=
  derive (fun s => str_value (sub_each (fun key => key) substitutions s)).

(** [r"\b{}\b".format(re.escape(key))] *)
Definition word_pattern (key : str) : str := u "\b" ++ escape key ++ u "\b".

Definition SubstituteWords (substitutions : list (str * str))
  : AbstractTransform :=
  derive (fun s => str_value (sub_each word_pattern substitutions s)).

(** [{word: " " for word in words_to_remove}] *)
Definition removal_mapping (words_to_remove : list str) : list (str * str) :=
  fold_left (fun d word => dict_set d word (u " ")) words_to_remove [].

Definition RemoveSpecificWords (words_to_remove : list str)
  : AbstractTransform :=
  SubstituteWords (removal_mapping words_to_remove).

(** *** RemovePunctuation *)

Definition RemovePunctuation : AbstractTransform :=
  BaseRemoveTransform (map (fun c => [c]) punctuation) (u "").

(** *** RemoveMultipleSpaces *)

Definition RemoveMultipleSpaces_process_string (s : str) : outcome value :=
  str_value (re_sub isalnum (u "\s\s+") (u " ") s).

Definition RemoveMultipleSpaces : AbstractTransform :=
  {| process_string := RemoveMultipleSpaces_process_string;
     process_list := on_strs (fun inp =>
       vs <- for_each RemoveMultipleSpaces_process_string inp ;;
       Ok (VList vs)) |}.

(** *** ExpandCommonEnglishContractions *)

Definition ExpandCommonEnglishContractions_process_string (s : str)
  : outcome value :=
  let re_sub := re_sub isalnum in
  str_value
    ((* specific words *)
     s <- re_sub (u "won't") (u "will not") s ;;
     s <- re_sub (u "can\'t") (u "can not") s ;;
     s <- re_sub (u "let\'s") (u "let us") s ;;
     (* general attachments *)
     s <- re_sub (u "n\'t") (u " not") s ;;
     s <- re_sub (u "\'re") (u " are") s ;;
     s <- re_sub (u "\'s") (u " is") s ;;
     s <- re_sub (u "\'d") (u " would") s ;;
     s <- re_sub (u "\'ll") (u " will") s ;;
     s <- re_sub (u "\'t") (u " not") s ;;
     s <- re_sub (u "\'ve") (u " have") s ;;
     s <- re_sub (u "\'m") (u " am") s ;;
     Ok s).

Definition ExpandCommonEnglishContractions : AbstractTransform :=
  derive ExpandCommonEnglishContractions_process_string.

(** *** ToLowerCase, ToUpperCase *)

Definition ToLowerCase : AbstractTransform :=
  derive (fun s => Ok (VStr (str_lower s))).

Definition ToUpperCase : AbstractTransform :=
  derive (fun s => Ok (VStr (str_upper s))).

(** *** RemoveKaldiNonWords *)

Definition RemoveKaldiNonWords_process_string (s : str) : outcome value :=
  str_value (re_sub isalnum (u "[<\[][^>\]]*[>\]]") (u "") s).

Definition RemoveKaldiNonWords : AbstractTransform :=
  derive RemoveKaldiNonWords_process_string.

End Transforms.

(** ** Reference definitions used by the statements *)

(** The token list of a sentence: the pieces between delimiters, without the
    empty ones. *)
Definition words (word_delimiter s : str) : list str :=
  filter nonempty (split_scan word_delimiter s 0 []).

Definition chars (s : str) : list str := map (fun c => [c]) s.

(** The table of contractions, in the order of the rewrites. *)
Definition contractions : list (str * str) :=
  [ (u "won't", u "will not"); (u "can't", u "can not");
    (u "let's", u "let us");
    (u "n't", u " not"); (u "'re", u " are"); (u "'s", u " is");
    (u "'d", u " would"); (u "'ll", u " will"); (u "'t", u " not");
    (u "'ve", u " have"); (u "'m", u " am") ].

Definition opener (c : char) : bool := ceq c 60 || ceq c 91.
Definition closer (c : char) : bool := ceq c 62 || ceq c 93.

(** Removal of bracketed spans, read left to right: a span opens at [<] or
    [[] when some [>] or []] follows, and ends at the first of them. *)
Fixpoint remove_spans (inside : bool) (s : str) : str :=
  match s with
  | [] => []
  | c :: tl =>
      if inside then remove_spans (negb (closer c)) tl
      else if opener c && existsb closer tl then remove_spans true tl
      else c :: remove_spans false tl
  end.

(** Collapse of whitespace runs, read left to right: a run of two or more
    whitespace characters becomes one space; [inside] holds while the rest of
    such a run is passed over. *)
Fixpoint collapse_runs (inside : bool) (s : str) : str :=
  match s with
  | [] => []
  | c :: tl =>
      if isspace c then
        if inside then collapse_runs true tl
        else if match tl with c' :: _ => isspace c' | [] => false end
             then 32%N :: collapse_runs true tl
             else c :: collapse_runs false tl
      else c :: collapse_runs false tl
  end.

(** The regex a word key compiles to. *)
Definition literal (key : str) : regex := map (fun c => One (ILit c)) key.
Definition word_regex (key : str) : regex :=
  Boundary :: literal key ++ [Boundary].

(** The character before the position reached after [taken]. *)
Definition prev_after (prev : option char) (taken : str) : option char :=
  fold_left (fun _ c => Some c) taken prev.

(** The regex of [RemoveKaldiNonWords] and of [RemoveMultipleSpaces]. *)
Definition kaldi_regex : regex :=
  [One (ISet false (u "<[")); Many0 (ISet true (u ">]"));
   One (ISet false (u ">]"))].
Definition spaces_regex : regex := [One ISpace; Many1 ISpace].

(** The number of characters before the first [>] or []]. *)
Fixpoint span_len (s : str) : option nat :=
  match s with
  | [] => None
  | c :: tl => if closer c then Some 0 else option_map S (span_len tl)
  end.

(** A transform whose [process_list] is the per-element default. *)
Definition per_element (t : AbstractTransform) : Prop :=
  forall inp, process_list t inp = default_process_list (process_string t) inp.

Definition is_str (v : value) : bool :=
  match v with VStr _ => true | _ => false end.
Definition is_list (v : value) : bool :=
  match v with VList _ => true | _ => false end.

(** A string with no whitespace at either end. *)
Definition starts_ws (s : str) : bool :=
  match s with c :: _ => isspace c | [] => false end.
Definition ends_ws (s : str) : bool := starts_ws (rev s).
Definition trimmed (t : str) : bool := negb (starts_ws t) && negb (ends_ws t).

(** A string with no two whitespace characters in a row. *)
Fixpoint sparse (s : str) : bool :=
  match s with
  | [] => true
  | c :: tl => negb (isspace c && starts_ws tl) && sparse tl
  end.

(** The length of the whitespace run a string starts with. *)
Fixpoint run_len (s : str) : nat :=
  match s with
  | c :: tl => if isspace c then S (run_len tl) else 0
  | [] => 0
  end.

(** A character of the ASCII table [string.whitespace]. *)
Definition ascii_space (c : char) : bool := is_in c string_whitespace.

(** The longest prefix of [s] whose characters satisfy [p]. *)
Fixpoint take_while (p : char -> bool) (s : str) : str :=
  match s with
  | [] => []
  | c :: tl => if p c then c :: take_while p tl else []
  end.

(** A word character: alphanumeric or underscore; [None] stands for the
    start or the end of the string. *)
Definition is_word_char (isalnum : char -> bool) (c : char) : bool :=
  isalnum c || ceq c 95.
Definition word_char (isalnum : char -> bool) (c : option char) : bool :=
  match c with Some x => is_word_char isalnum x | None => false end.

(** Replacement of whole words, read left to right: [cur] collects the
    current run of word characters; when the run ends it is put out, or
    [value] in its place when the run is [key]. *)
Definition emit_word (key value cur : str) : str :=
  if str_eqb key cur then value else cur.
Fixpoint replace_whole_words (word : char -> bool) (key value cur s : str)
  : str :=
  match s with
  | [] => emit_word key value cur
  | c :: tl =>
      if word c then replace_whole_words word key value (cur ++ [c]) tl
      else emit_word key value cur
           ++ c :: replace_whole_words word key value [] tl
  end.

(** A transform whose [process_string] returns a string on every string. *)
Definition str_transform (t : AbstractTransform) : Prop :=
  forall s, exists s', process_string t s = Ok (VStr s').

(** A character with no meaning of its own in pattern text. *)
Definition pattern_meta : str := u "\[*+" ++ other_meta.
Definition plain (c : char) : bool := negb (is_in c pattern_meta).

(** ** Lists of strings as values *)

Lemma strs_of_map (l : list str) : strs_of (map VStr l) = Some l.
Proof.
  induction l as [|s l IH]; simpl; [reflexivity|].
  now rewrite IH.
Qed.

Lemma call_str (t : AbstractTransform) (s : str) :
  call t (VStr s) = process_string t s.
Proof. reflexivity. Qed.

Lemma on_strs_map (f : list str -> outcome value) (inp : list str) :
  on_strs f (map VStr inp) = f inp.
Proof. unfold on_strs. now rewrite strs_of_map. Qed.

Lemma call_list (t : AbstractTransform) (l : list value) :
  call t (VList l) = process_list t l.
Proof. reflexivity. Qed.

Lemma call_strs (t : AbstractTransform) (inp : list str) :
  call t (VStrs inp) = process_list t (map VStr inp).
Proof. reflexivity. Qed.

Lemma for_each_ok {A B} (f : A -> B) (l : list A) :
  for_each (fun x => Ok (f x)) l = Ok (map f l).
Proof.
  induction l as [|x l IH]; simpl; [reflexivity|].
  now rewrite IH.
Qed.

(** ** The per-element default *)

Lemma derive_per_element (ps : str -> outcome value) : per_element (derive ps).
Proof. intro inp. reflexivity. Qed.

Lemma BaseRemoveTransform_per_element (tokens : list str) (tok : str) :
  per_element (BaseRemoveTransform tokens tok).
Proof. intro inp. reflexivity. Qed.

Lemma RemoveMultipleSpaces_per_element (isalnum : char -> bool) :
  per_element (RemoveMultipleSpaces isalnum).
Proof. intro inp. reflexivity. Qed.

(** C1. A transform that uses the default per-element [process_list] maps the
    singleton list [[s]] to the singleton list holding its result on [s]
    (and raises on [[s]] exactly when it raises on [s]). *)
Theorem singleton_list_interchangeable (t : AbstractTransform) (s : str) :
  per_element t ->
  call t (VStrs [s]) = (v <- call t (VStr s) ;; Ok (VList [v])).
Proof.
  intro Hdef.
  rewrite call_strs, call_str, Hdef.
  unfold default_process_list. rewrite on_strs_map. simpl.
  destruct (process_string t s); reflexivity.
Qed.

(** C2, as the code has it.  An input that is neither a string nor a list
    makes every transform raise [ValueError]; on a string or a list, whatever
    the list holds, the call is the corresponding method, so the dispatch
    raises nothing of its own. *)
Theorem invalid_input_kind (t : AbstractTransform) (v : value) :
  is_str v = false -> is_list v = false ->
  call t v = Raise ValueError
  /\ (forall s, call t (VStr s) = process_string t s)
  /\ (forall l, call t (VList l) = process_list t l).
Proof.
  intros Hs Hl. split; [|split].
  - destruct v; simpl in *; try discriminate; reflexivity.
  - apply call_str.
  - apply call_list.
Qed.

(** C2, as stated, fails: a list that holds a list is neither a string nor
    a list of strings, yet the sentence join returns a value on it; when the
    inner list is not empty the error raised is [TypeError], from [join], not
    [ValueError]. *)
Lemma list_of_non_strings_accepted :
  strs_of [VList []] = None
  /\ call (ReduceToSingleSentence default_word_delimiter) (VList [VList []])
     = Ok (VList [])
  /\ call (ReduceToSingleSentence default_word_delimiter)
       (VList [VList [VStr (u "a")]])
     = Raise TypeError.
Proof. repeat split. Qed.

(** ** Splitting and joining *)

Lemma starts_with_app (p s : str) :
  starts_with p s = true -> s = p ++ skipn (length p) s.
Proof.
  revert s. induction p as [|x p IH]; intros s H; simpl in *; [reflexivity|].
  destruct s as [|y s]; [discriminate|].
  apply andb_true_iff in H as [Hxy Hp].
  apply N.eqb_eq in Hxy. subst y. simpl. f_equal. now apply IH.
Qed.

Lemma split_scan_cons (sep s : str) (k : nat) (cur : str) :
  exists piece rest, split_scan sep s k cur = piece :: rest.
Proof.
  revert k cur. induction s as [|c s IH]; intros k cur.
  - destruct k; simpl; eauto.
  - destruct k; simpl.
    + destruct (starts_with sep (c :: s)); eauto.
    + apply IH.
Qed.

Lemma str_join_cons (sep x y : str) (l : list str) :
  str_join sep (x :: y :: l) = x ++ sep ++ str_join sep (y :: l).
Proof. reflexivity. Qed.

(** Joining the pieces of a split by the separator gives the string back. *)
Lemma join_split_scan (sep s : str) (k : nat) (cur : str) :
  sep <> [] ->
  str_join sep (split_scan sep s k cur) = cur ++ skipn k s.
Proof.
  intro Hsep. revert k cur.
  induction s as [|c s IH]; intros k cur.
  - destruct k; simpl; now rewrite app_nil_r.
  - destruct k as [|k]; simpl split_scan.
    + destruct (starts_with sep (c :: s)) eqn:Hst.
      * destruct (split_scan_cons sep s (length sep - 1) []) as (y & l & Hy).
        pose proof (IH (length sep - 1) []) as Hj.
        rewrite Hy in *. rewrite str_join_cons, Hj. simpl.
        apply starts_with_app in Hst.
        destruct sep as [|x sep]; [congruence|].
        simpl in *. rewrite Nat.sub_0_r.
        injection Hst as Hx Hs. subst x.
        now rewrite <- Hs.
      * rewrite IH. simpl. now rewrite <- app_assoc.
    + now rewrite IH.
Qed.

Lemma join_split (s sep : str) :
  sep <> [] ->
  exists pieces, str_split s sep = Ok pieces /\ str_join sep pieces = s.
Proof.
  intro Hsep. exists (split_scan sep s 0 []). split.
  - destruct sep; [congruence | reflexivity].
  - now rewrite join_split_scan.
Qed.

Lemma words_nonempty (word_delimiter s : str) :
  Forall (fun w => w <> []) (words word_delimiter s).
Proof.
  apply Forall_forall. intros w Hw.
  apply filter_In in Hw as [_ Hw]. now destruct w.
Qed.

(** ** ReduceToListOfListOfWords, ReduceToListOfListOfChars *)

Lemma collect_sentences_ok (ps : str -> outcome value) (g : str -> value)
    (inp : list str) (acc : list value) :
  (forall s, ps s = Ok (VList [g s])) ->
  fold_left
    (fun acc sentence =>
       sentence_collection <- acc ;;
       r <- ps sentence ;;
       list_of_words <- item0 r ;;
       Ok (sentence_collection ++ [list_of_words]))
    inp (Ok acc)
  = Ok (acc ++ map g inp).
Proof.
  intro Hps. revert acc.
  induction inp as [|s inp IH]; intro acc; simpl.
  - now rewrite app_nil_r.
  - rewrite Hps. simpl. rewrite IH. now rewrite <- app_assoc.
Qed.

Lemma reduce_process_list_ok (ps : str -> outcome value) (g : str -> value)
    (inp : list str) :
  (forall s, ps s = Ok (VList [g s])) ->
  reduce_process_list ps inp
  = Ok (VList (match inp with [] => [VList []] | _ :: _ => map g inp end)).
Proof.
  intro Hps. unfold reduce_process_list, collect_sentences.
  rewrite (collect_sentences_ok _ g inp [] Hps). simpl.
  destruct inp; reflexivity.
Qed.

Lemma words_process_string (word_delimiter s : str) :
  word_delimiter <> [] ->
  ReduceToListOfListOfWords_process_string word_delimiter s
  = Ok (VList [VStrs (words word_delimiter s)]).
Proof.
  intro Hd. unfold ReduceToListOfListOfWords_process_string.
  destruct word_delimiter; [congruence | reflexivity].
Qed.

(** C3. On a string, the reduction to words returns the one-element list
    holding the sentence's pieces between delimiters without the empty ones
    (the pieces joined by the delimiter are the sentence), and the reduction
    to characters the one-element list holding its characters; on a non-empty
    list each returns the token lists of the sentences in order; on the empty
    list each returns the list holding one empty token list. *)
Theorem reduce_to_tokens (word_delimiter : str) :
  word_delimiter <> [] ->
  (forall s,
      call (ReduceToListOfListOfWords word_delimiter) (VStr s)
      = Ok (VTokens [words word_delimiter s])
      /\ Forall (fun w => w <> []) (words word_delimiter s)
      /\ exists pieces,
          str_split s word_delimiter = Ok pieces
          /\ str_join word_delimiter pieces = s
          /\ words word_delimiter s = filter nonempty pieces)
  /\ (forall s, call ReduceToListOfListOfChars (VStr s) = Ok (VTokens [chars s]))
  /\ (forall inp, inp <> [] ->
        call (ReduceToListOfListOfWords word_delimiter) (VStrs inp)
        = Ok (VTokens (map (words word_delimiter) inp))
        /\ call ReduceToListOfListOfChars (VStrs inp)
           = Ok (VTokens (map chars inp)))
  /\ call (ReduceToListOfListOfWords word_delimiter) (VStrs [])
     = Ok (VTokens [[]])
  /\ call ReduceToListOfListOfChars (VStrs []) = Ok (VTokens [[]]).
Proof.
  intro Hd. repeat split.
  - rewrite call_str. simpl. now apply words_process_string.
  - apply words_nonempty.
  - destruct (join_split s word_delimiter Hd) as (pieces & Hsplit & Hjoin).
    exists pieces. repeat split; try assumption.
    unfold words. destruct word_delimiter; [congruence|].
    simpl in Hsplit. now injection Hsplit as <-.
  - rewrite call_strs. simpl process_list. rewrite on_strs_map.
    rewrite (reduce_process_list_ok _
               (fun s => VStrs (words word_delimiter s)) inp
               (fun s => words_process_string word_delimiter s Hd)).
    destruct inp as [|s inp]; [congruence|].
    unfold VTokens. now rewrite map_map.
  - rewrite call_strs. simpl process_list. rewrite on_strs_map.
    rewrite (reduce_process_list_ok ReduceToListOfListOfChars_process_string
               (fun s => VStrs (chars s)) inp (fun s => eq_refl)).
    destruct inp as [|s inp]; [congruence|].
    unfold VTokens. now rewrite map_map.
Qed.

(** ** ReduceToSingleSentence *)

Lemma filter_nonempty_nil (inp : list str) :
  filter nonempty inp = [] <-> (forall s, In s inp -> s = []).
Proof.
  induction inp as [|x inp IH]; simpl.
  - split; [intros _ s [] | reflexivity].
  - destruct x as [|c x]; simpl.
    + rewrite IH. split.
      * intros H s [<- | Hs]; [reflexivity | now apply H].
      * intros H s Hs. apply H. now right.
    + split; [discriminate|].
      intro H. specialize (H (c :: x) (or_introl eq_refl)). discriminate.
Qed.

Lemma select_len_strs (inp : list str) :
  select_values (fun i => n <- py_len i ;; Ok (1 <=? n)) (map VStr inp)
  = Ok (map VStr (filter nonempty inp)).
Proof.
  induction inp as [|s inp IH]; [reflexivity|].
  cbn [map select_values py_len bind]. rewrite IH. cbn [bind].
  now destruct s.
Qed.

(** The sentence join on a list of strings. *)
Lemma join_strs (word_delimiter : str) (inp : list str) :
  call (ReduceToSingleSentence word_delimiter) (VStrs inp)
  = Ok (VStrs match filter nonempty inp with
               | [] => []
               | x :: l => [str_join word_delimiter (x :: l)]
               end).
Proof.
  rewrite call_strs. cbn [process_list ReduceToSingleSentence].
  rewrite select_len_strs. cbn [bind]. rewrite length_map.
  destruct (filter nonempty inp) as [|x l]; [reflexivity|].
  cbn [length Nat.eqb]. unfold join_values. now rewrite strs_of_map.
Qed.

(** C4. The sentence join returns a string as it is; on a list with a
    non-empty element it returns the one-element list holding the non-empty
    elements joined in order by the delimiter; on a list all of whose elements
    are empty (the empty list too) it returns the empty list. *)
Theorem sentence_join (word_delimiter : str) :
  (forall s, call (ReduceToSingleSentence word_delimiter) (VStr s) = Ok (VStr s))
  /\ (forall inp, (exists s, In s inp /\ s <> []) ->
        call (ReduceToSingleSentence word_delimiter) (VStrs inp)
        = Ok (VStrs [str_join word_delimiter (filter nonempty inp)]))
  /\ (forall inp, (forall s, In s inp -> s = []) ->
        call (ReduceToSingleSentence word_delimiter) (VStrs inp) = Ok (VStrs [])).
Proof.
  split; [reflexivity|].
  split; intros inp H; rewrite join_strs.
  - destruct (filter nonempty inp) eqn:Hf; [|reflexivity].
    destruct H as (s & Hin & Hne).
    now apply (proj1 (filter_nonempty_nil inp) Hf) in Hin.
  - now rewrite (proj2 (filter_nonempty_nil inp) H).
Qed.

(** ** Trimming *)

Lemma drop_while_split (p : char -> bool) (s : str) :
  exists a, s = a ++ drop_while p s /\ forallb p a = true.
Proof.
  induction s as [|c s (a & Hs & Ha)]; simpl.
  - now exists [].
  - destruct (p c) eqn:Hc.
    + exists (c :: a). simpl. rewrite Hc, Ha. split; [now f_equal | reflexivity].
    + now exists [].
Qed.

Lemma drop_while_head (p : char -> bool) (s : str) (c : char) (t : str) :
  drop_while p s = c :: t -> p c = false.
Proof.
  induction s as [|x s IH]; simpl; [discriminate|].
  destruct (p x) eqn:Hx; [assumption|].
  intro H. injection H as <- _. exact Hx.
Qed.

Lemma drop_while_nil (p : char -> bool) (s : str) :
  drop_while p s = [] <-> forallb p s = true.
Proof.
  induction s as [|x s IH]; simpl; [tauto|].
  destruct (p x); simpl; [exact IH | split; discriminate].
Qed.

Lemma drop_while_id (s : str) :
  starts_ws s = false -> drop_while isspace s = s.
Proof.
  destruct s as [|c s]; simpl; [reflexivity|].
  now intros ->.
Qed.

Lemma drop_while_starts (s : str) : starts_ws (drop_while isspace s) = false.
Proof.
  destruct (drop_while isspace s) as [|c t] eqn:H; [reflexivity|].
  now apply drop_while_head in H.
Qed.

Lemma forallb_rev (p : char -> bool) (s : str) :
  forallb p (rev s) = forallb p s.
Proof.
  induction s as [|c s IH]; simpl; [reflexivity|].
  rewrite forallb_app, IH. simpl. rewrite andb_true_r. apply andb_comm.
Qed.

Lemma rstrip_split (s : str) :
  exists b, s = rstrip s ++ b /\ forallb isspace b = true.
Proof.
  unfold rstrip.
  destruct (drop_while_split isspace (rev s)) as (a & Hs & Ha).
  exists (rev a). split.
  - rewrite <- rev_app_distr, <- Hs. now rewrite rev_involutive.
  - now rewrite forallb_rev.
Qed.

Lemma rstrip_ends (s : str) : ends_ws (rstrip s) = false.
Proof.
  unfold ends_ws, rstrip. rewrite rev_involutive. apply drop_while_starts.
Qed.

Lemma rstrip_starts (s : str) :
  starts_ws s = false -> starts_ws (rstrip s) = false.
Proof.
  intro H. destruct (rstrip_split s) as (b & Hb & _).
  destruct (rstrip s) as [|c t]; [reflexivity|].
  rewrite Hb in H. exact H.
Qed.

(** [strip] removes a whitespace prefix and a whitespace suffix, and what is
    left has no whitespace at either end. *)
Lemma strip_split (s : str) :
  exists a b, s = a ++ strip s ++ b
              /\ forallb isspace a = true /\ forallb isspace b = true.
Proof.
  unfold strip, lstrip.
  destruct (drop_while_split isspace s) as (a & Hs & Ha).
  destruct (rstrip_split (drop_while isspace s)) as (b & Hb & Hbs).
  exists a, b. repeat split; try assumption.
  now rewrite <- Hb.
Qed.

Lemma strip_trimmed (s : str) : trimmed (strip s) = true.
Proof.
  unfold trimmed, strip, lstrip.
  rewrite rstrip_ends, rstrip_starts; [reflexivity|].
  apply drop_while_starts.
Qed.

Lemma strip_id (t : str) : trimmed t = true -> strip t = t.
Proof.
  unfold trimmed. intro H. apply andb_true_iff in H as [Hs He].
  apply negb_true_iff in Hs, He.
  unfold strip, lstrip, rstrip.
  rewrite (drop_while_id t Hs), (drop_while_id (rev t) He).
  apply rev_involutive.
Qed.

Lemma strip_nonempty (s : str) :
  nonempty (strip s) = negb (forallb isspace s).
Proof.
  destruct (strip_split s) as (a & b & Hs & Ha & Hb).
  pose proof (strip_trimmed s) as Ht.
  destruct (strip s) as [|c t] eqn:Hst; simpl.
  - rewrite Hs. simpl. now rewrite forallb_app, Ha, Hb.
  - unfold trimmed in Ht. apply andb_true_iff in Ht as [Hhd _].
    apply negb_true_iff in Hhd. simpl in Hhd.
    rewrite Hs, forallb_app. simpl.
    rewrite Hhd. simpl. now rewrite andb_false_r.
Qed.

(** ** RemoveEmptyStrings *)

Lemma select_ok (keep : str -> bool) (inp : list str) :
  select (fun s => Ok (keep s)) inp = Ok (filter keep inp).
Proof.
  induction inp as [|s inp IH]; simpl; [reflexivity|].
  rewrite IH. simpl. now destruct (keep s).
Qed.

(** C9. On a list the empty-string filter returns, unchanged and in order,
    the elements that hold a character that is not whitespace, which are
    those not empty once trimmed; on a string it returns the string trimmed:
    the part left between a whitespace prefix and a whitespace suffix, with
    no whitespace at either end, so a string with no whitespace at its ends
    comes back as it is. *)
Theorem empty_string_filter :
  (forall inp,
      call RemoveEmptyStrings (VStrs inp)
      = Ok (VStrs (filter (fun s => negb (forallb isspace s)) inp)))
  /\ (forall s, nonempty (strip s) = negb (forallb isspace s))
  /\ (forall s, exists a t b,
         s = a ++ t ++ b
         /\ forallb isspace a = true /\ forallb isspace b = true
         /\ trimmed t = true
         /\ call RemoveEmptyStrings (VStr s) = Ok (VStr t))
  /\ (forall s, call RemoveEmptyStrings (VStr s) = Ok (VStr (strip s)))
  /\ (forall s, trimmed s = true ->
        call RemoveEmptyStrings (VStr s) = Ok (VStr s)).
Proof.
  split; [|split; [|split; [|split]]].
  - intro inp. rewrite call_strs. simpl process_list.
    rewrite on_strs_map. simpl.
    rewrite (select_ok (fun s => nonempty (strip s))). cbn [bind].
    do 2 f_equal. apply filter_ext. intro s. apply strip_nonempty.
  - apply strip_nonempty.
  - intro s. destruct (strip_split s) as (a & b & Hs & Ha & Hb).
    exists a, (strip s), b. repeat split; try assumption.
    apply strip_trimmed.
  - reflexivity.
  - intros s H. rewrite call_str. simpl. now rewrite strip_id.
Qed.

(** ** BaseRemoveTransform on one-character tokens *)

Lemma ceq_sym (a b : char) : ceq a b = ceq b a.
Proof. apply N.eqb_sym. Qed.

Lemma replace_char (c : char) (new s : str) :
  str_replace s [c] new = flat_map (fun x => if ceq x c then new else [x]) s.
Proof.
  unfold str_replace.
  induction s as [|x s IH]; simpl; [reflexivity|].
  rewrite andb_true_r, (ceq_sym c x).
  destruct (ceq x c); simpl; now rewrite IH.
Qed.

Lemma remove_char (c : char) (s : str) :
  str_replace s [c] [] = filter (fun x => negb (ceq x c)) s.
Proof.
  rewrite replace_char.
  induction s as [|x s IH]; simpl; [reflexivity|].
  destruct (ceq x c); simpl; now rewrite IH.
Qed.

Lemma blank_char (c : char) (s : str) :
  str_replace s [c] [32%N] = map (fun x => if ceq x c then 32%N else x) s.
Proof.
  rewrite replace_char.
  induction s as [|x s IH]; simpl; [reflexivity|].
  destruct (ceq x c); simpl; now rewrite IH.
Qed.

Lemma remove_chars (cs s : str) :
  fold_left (fun s w => str_replace s w []) (map (fun c => [c]) cs) s
  = filter (fun x => negb (is_in x cs)) s.
Proof.
  revert s. induction cs as [|c cs IH]; intro s; cbn [map fold_left].
  - induction s as [|x s IHs]; simpl; [reflexivity | now f_equal].
  - rewrite IH, remove_char.
    induction s as [|x s IHs]; simpl; [reflexivity|].
    destruct (ceq x c); simpl; [exact IHs|].
    destruct (is_in x cs); simpl; now rewrite IHs.
Qed.

Lemma blank_chars (cs s : str) :
  fold_left (fun s w => str_replace s w [32%N]) (map (fun c => [c]) cs) s
  = map (fun x => if is_in x cs then 32%N else x) s.
Proof.
  revert s. induction cs as [|c cs IH]; intro s; cbn [map fold_left].
  - now rewrite map_id.
  - rewrite IH, blank_char, map_map.
    apply map_ext. intro x. simpl.
    destruct (ceq x c); simpl; [|reflexivity].
    now destruct (is_in 32%N cs).
Qed.

(** C8, as the code has it.  In removal mode the result is the input without
    the six characters of [string.whitespace]; in replace-by-space mode each
    of them is turned into one space.  Every other character stays, so in
    removal mode none of the six is left. *)
Theorem whitespace_removal (s : str) :
  call (RemoveWhiteSpace false) (VStr s)
  = Ok (VStr (filter (fun c => negb (ascii_space c)) s))
  /\ call (RemoveWhiteSpace true) (VStr s)
     = Ok (VStr (map (fun c => if ascii_space c then 32%N else c) s))
  /\ forallb (fun c => negb (ascii_space c))
       (filter (fun c => negb (ascii_space c)) s) = true.
Proof.
  split; [|split].
  - rewrite call_str. unfold RemoveWhiteSpace. simpl process_string.
    unfold BaseRemoveTransform_process_string.
    now rewrite (remove_chars string_whitespace).
  - rewrite call_str. unfold RemoveWhiteSpace. simpl process_string.
    unfold BaseRemoveTransform_process_string.
    now rewrite (blank_chars string_whitespace).
  - apply forallb_forall. intros c Hc. now apply filter_In in Hc.
Qed.

(** C8, as stated, fails: U+00A0 is whitespace ([strip] removes it) and
    survives the removal. *)
Lemma whitespace_survives_removal :
  call (RemoveWhiteSpace false) (VStr [97; 160; 98]%N)
  = Ok (VStr [97; 160; 98]%N)
  /\ isspace 160%N = true
  /\ call Strip (VStr [160%N]) = Ok (VStr []).
Proof. repeat split. Qed.

(** ** The matcher, clause by clause *)

Section MatcherFacts.

Variable isalnum : char -> bool.

Abbreviation match_here := (match_here isalnum).
Abbreviation match_at := (match_at isalnum).
Abbreviation sub_scan := (sub_scan isalnum).

Lemma match_here_one (i : item) (r : regex) adv prev c tl n :
  match_here (One i :: r) adv prev (c :: tl) n
  = if item_matches i c then match_here r adv (Some c) tl (S n) else None.
Proof. reflexivity. Qed.

Lemma match_here_many0 (i : item) (r : regex) adv prev s n :
  match_here (Many0 i :: r) adv prev s n
  = match s with
    | c :: tl =>
        if item_matches i c then
          match match_here (Many0 i :: r) adv (Some c) tl (S n) with
          | Some m => Some m
          | None => match_here r adv prev s n
          end
        else match_here r adv prev s n
    | [] => match_here r adv prev s n
    end.
Proof. destruct s; reflexivity. Qed.

Lemma match_here_many1 (i : item) (r : regex) adv prev c tl n :
  match_here (Many1 i :: r) adv prev (c :: tl) n
  = if item_matches i c then match_here (Many0 i :: r) adv (Some c) tl (S n)
    else None.
Proof. reflexivity. Qed.

(** *** Literal patterns *)

Lemma match_literal (key : str) (r : regex) adv prev s n :
  match_here (literal key ++ r) adv prev s n
  = if starts_with key s
    then match_here r adv (prev_after prev key) (skipn (length key) s)
           (n + length key)
    else None.
Proof.
  revert prev s n. induction key as [|x key IH]; intros prev s n.
  - simpl. now rewrite Nat.add_0_r.
  - destruct s as [|c tl]; [reflexivity|].
    cbn [literal map app]. rewrite match_here_one.
    cbn [item_matches starts_with].
    destruct (ceq x c) eqn:Hxc; [|reflexivity].
    apply N.eqb_eq in Hxc. subst c.
    change (map (fun c => One (ILit c)) key) with (literal key).
    rewrite IH. cbn [andb length skipn prev_after fold_left].
    now rewrite Nat.add_succ_r.
Qed.

Lemma match_at_literal (key : str) adv prev s :
  key <> [] ->
  match_at (literal key) adv prev s
  = if starts_with key s then Some (length key) else None.
Proof.
  intro Hk. unfold Sre.match_at.
  rewrite <- (app_nil_r (literal key)), match_literal.
  destruct (starts_with key s); [|reflexivity].
  destruct key; [congruence|]. simpl. now rewrite andb_false_r.
Qed.

(** Substituting for a literal pattern is [str.replace]. *)
Lemma sub_scan_literal (key repl s : str) prev skip :
  key <> [] ->
  sub_scan (literal key) repl prev s skip = replace_scan key repl s skip.
Proof.
  intro Hk. revert prev skip.
  induction s as [|c s IH]; intros prev skip.
  - destruct skip; [|reflexivity].
    cbn [sub_scan]. rewrite !match_at_literal by assumption.
    destruct key; [congruence | reflexivity].
  - destruct skip as [|k]; [|apply IH].
    cbn [sub_scan replace_scan]. rewrite !match_at_literal by assumption.
    destruct (starts_with key (c :: s)).
    + destruct key as [|x key]; [congruence|].
      cbn [length]. rewrite Nat.sub_succ, Nat.sub_0_r. now rewrite IH.
    + now rewrite IH.
Qed.

Lemma re_sub_literal (pattern key repl s : str) :
  parse pattern = Some (literal key) -> key <> [] ->
  template repl = Some repl ->
  re_sub isalnum pattern repl s = Ok (str_replace s key repl).
Proof.
  intros Hp Hk Ht. unfold re_sub. rewrite Hp, Ht.
  unfold sub. rewrite sub_scan_literal by assumption.
  destruct key; [congruence | reflexivity].
Qed.

End MatcherFacts.

(** ** ExpandCommonEnglishContractions *)

(** One rewrite of the chain, by [re_sub_literal]. *)
Ltac literal_sub isalnum pattern key repl :=
  rewrite (re_sub_literal isalnum pattern key repl)
    by solve [reflexivity | cbv; discriminate];
  cbn [bind].

(** C6. The contraction expansion rewrites the listed contractions, each
    occurrence by its listed replacement, one contraction after the other in
    the listed order; so ["won't"] becomes ["will not"]. *)
Theorem contraction_expansion (isalnum : char -> bool) (s : str) :
  call (ExpandCommonEnglishContractions isalnum) (VStr s)
  = Ok (VStr (fold_left (fun s kv => str_replace s (fst kv) (snd kv))
                        contractions s))
  /\ call (ExpandCommonEnglishContractions isalnum) (VStr (u "won't"))
     = Ok (VStr (u "will not")).
Proof.
  assert (H : forall s,
             call (ExpandCommonEnglishContractions isalnum) (VStr s)
             = Ok (VStr (fold_left (fun s kv => str_replace s (fst kv) (snd kv))
                                   contractions s))).
  { clear s. intro s. rewrite call_str.
    cbn [process_string ExpandCommonEnglishContractions derive].
    unfold ExpandCommonEnglishContractions_process_string, str_value.
    literal_sub isalnum (u "won't") (u "won't") (u "will not").
    literal_sub isalnum (u "can\'t") (u "can't") (u "can not").
    literal_sub isalnum (u "let\'s") (u "let's") (u "let us").
    literal_sub isalnum (u "n\'t") (u "n't") (u " not").
    literal_sub isalnum (u "\'re") (u "'re") (u " are").
    literal_sub isalnum (u "\'s") (u "'s") (u " is").
    literal_sub isalnum (u "\'d") (u "'d") (u " would").
    literal_sub isalnum (u "\'ll") (u "'ll") (u " will").
    literal_sub isalnum (u "\'t") (u "'t") (u " not").
    literal_sub isalnum (u "\'ve") (u "'ve") (u " have").
    literal_sub isalnum (u "\'m") (u "'m") (u " am").
    reflexivity. }
  split; [apply H|].
  rewrite H. reflexivity.
Qed.

(** ** RemoveKaldiNonWords *)

Section ScanFacts.

Variable isalnum : char -> bool.

Abbreviation match_here := (match_here isalnum).
Abbreviation match_at := (match_at isalnum).
Abbreviation sub_scan := (sub_scan isalnum).

Lemma sub_scan_0 (r : regex) (repl : str) prev (s : str) :
  sub_scan r repl prev s 0
  = match match_at r false prev s, s with
    | None, [] => []
    | None, c :: tl => c :: sub_scan r repl (Some c) tl 0
    | Some (S k), [] => repl
    | Some (S k), c :: tl => repl ++ sub_scan r repl (Some c) tl k
    | Some O, _ =>
        repl ++ match match_at r true prev s, s with
                | Some (S k), [] => repl
                | Some (S k), c :: tl => repl ++ sub_scan r repl (Some c) tl k
                | _, [] => []
                | _, c :: tl => c :: sub_scan r repl (Some c) tl 0
                end
    end.
Proof.
  destruct s as [|c tl]; cbn [Sre.sub_scan].
  - now destruct (match_at r false prev []) as [[|k]|].
  - now destruct (match_at r false prev (c :: tl)) as [[|k]|].
Qed.

Lemma sub_scan_S (r : regex) (repl : str) prev c tl k :
  sub_scan r repl prev (c :: tl) (S k) = sub_scan r repl (Some c) tl k.
Proof. reflexivity. Qed.

Lemma opener_matches (c : char) :
  item_matches (ISet false (u "<[")) c = opener c.
Proof. unfold opener. simpl. now rewrite orb_false_r. Qed.

Lemma closer_matches (negate : bool) (c : char) :
  item_matches (ISet negate (u ">]")) c = xorb negate (closer c).
Proof. unfold closer. simpl. now rewrite orb_false_r. Qed.

Lemma existsb_closer (s : str) :
  existsb closer s = match span_len s with Some _ => true | None => false end.
Proof.
  induction s as [|c s IH]; simpl; [reflexivity|].
  destruct (closer c); simpl; [reflexivity|].
  rewrite IH. now destruct (span_len s).
Qed.

(** The body of a span and its closing character. *)
Lemma match_span adv prev (s : str) (n : nat) :
  match_here [Many0 (ISet true (u ">]")); One (ISet false (u ">]"))]
    adv prev s n
  = option_map (fun k => n + S k) (span_len s).
Proof.
  revert prev n. induction s as [|c s IH]; intros prev n.
  - reflexivity.
  - rewrite match_here_many0, match_here_one, !closer_matches, IH.
    cbn [span_len xorb]. destruct (closer c); cbn [negb].
    + cbn [Sre.match_here option_map Nat.eqb]. rewrite andb_false_r.
      now rewrite Nat.add_1_r.
    + destruct (span_len s) as [k|]; cbn [option_map]; [|reflexivity].
      f_equal. lia.
Qed.

Lemma match_kaldi adv prev (s : str) :
  match_at kaldi_regex adv prev s
  = match s with
    | [] => None
    | c :: tl =>
        if opener c then option_map (fun k => S (S k)) (span_len tl) else None
    end.
Proof.
  destruct s as [|c tl]; [reflexivity|].
  unfold Sre.match_at, kaldi_regex.
  rewrite match_here_one, opener_matches.
  destruct (opener c); [|reflexivity].
  rewrite match_span. now destruct (span_len tl).
Qed.

Lemma kaldi_scan (s : str) :
  (forall prev, sub_scan kaldi_regex [] prev s 0 = remove_spans false s)
  /\ (forall prev k, span_len s = Some k ->
        sub_scan kaldi_regex [] prev s (S k) = remove_spans true s).
Proof.
  induction s as [|c s [IH0 IHS]]; split.
  - intro prev. now rewrite sub_scan_0, match_kaldi.
  - discriminate.
  - intro prev. rewrite sub_scan_0, match_kaldi. cbn [remove_spans].
    rewrite existsb_closer.
    destruct (opener c); cbn [andb].
    + destruct (span_len s) as [k|] eqn:Hk; cbn [option_map].
      * cbn [app]. now apply IHS.
      * now rewrite IH0.
    + now rewrite IH0.
  - intros prev k Hk. rewrite sub_scan_S. cbn [remove_spans].
    cbn [span_len] in Hk. destruct (closer c); cbn [negb].
    + injection Hk as <-. apply IH0.
    + destruct (span_len s) as [k'|]; [|discriminate].
      injection Hk as <-. now apply IHS.
Qed.

Lemma remove_spans_no_opener (s : str) :
  forallb (fun c => negb (opener c)) s = true -> remove_spans false s = s.
Proof.
  induction s as [|c s IH]; simpl; [reflexivity|].
  intro H. apply andb_true_iff in H as [Hc Hs].
  apply negb_true_iff in Hc. rewrite Hc. simpl. now rewrite IH.
Qed.

Lemma remove_spans_no_closer (s : str) :
  existsb closer s = false -> remove_spans false s = s.
Proof.
  induction s as [|c s IH]; simpl; [reflexivity|].
  intro H. apply orb_false_iff in H as [_ Hs].
  rewrite Hs, andb_false_r. now rewrite IH.
Qed.

End ScanFacts.

(** C7, as the code has it.  The removal drops, reading left to right, every
    span that opens at [<] or [[] and ends at the first [>] or []] after it,
    whichever of the two it is; an opener with no closer after it stays, and
    a string without openers, or without closers, is returned as it is. *)
Theorem bracketed_token_removal (isalnum : char -> bool) (s : str) :
  call (RemoveKaldiNonWords isalnum) (VStr s) = Ok (VStr (remove_spans false s))
  /\ (forallb (fun c => negb (opener c)) s = true ->
      call (RemoveKaldiNonWords isalnum) (VStr s) = Ok (VStr s))
  /\ (existsb closer s = false ->
      call (RemoveKaldiNonWords isalnum) (VStr s) = Ok (VStr s)).
Proof.
  assert (H : call (RemoveKaldiNonWords isalnum) (VStr s)
              = Ok (VStr (remove_spans false s))).
  { rewrite call_str.
    cbn [process_string RemoveKaldiNonWords derive].
    unfold RemoveKaldiNonWords_process_string, str_value, re_sub.
    change (parse (u "[<\[][^>\]]*[>\]]")) with (Some kaldi_regex).
    change (template (u "")) with (Some (@nil char)).
    unfold sub. now rewrite (proj1 (kaldi_scan isalnum s)). }
  split; [exact H|]. split; intro Hs; rewrite H.
  - now rewrite remove_spans_no_opener.
  - now rewrite remove_spans_no_closer.
Qed.

(** C7, as stated, fails: a span opened by [<] is closed by []]. *)
Lemma mixed_brackets_removed :
  call (RemoveKaldiNonWords ascii_alnum) (VStr (u "a<b]c")) = Ok (VStr (u "ac")).
Proof. reflexivity. Qed.

(** ** RemoveMultipleSpaces *)

Section CollapseFacts.

Variable isalnum : char -> bool.

Abbreviation match_here := (match_here isalnum).
Abbreviation match_at := (match_at isalnum).
Abbreviation sub_scan := (sub_scan isalnum).

Lemma match_run adv prev (s : str) (n : nat) :
  match_here [Many0 ISpace] adv prev s (S n) = Some (S n + run_len s).
Proof.
  revert prev n. induction s as [|c s IH]; intros prev n.
  - cbn. rewrite andb_false_r. f_equal. lia.
  - rewrite match_here_many0, IH. cbn [item_matches run_len].
    destruct (isspace c).
    + f_equal. lia.
    + cbn. rewrite andb_false_r. f_equal. lia.
Qed.

Lemma match_spaces adv prev (c : char) (tl : str) :
  match_at spaces_regex adv prev (c :: tl)
  = if isspace c && starts_ws tl then Some (S (run_len tl)) else None.
Proof.
  unfold Sre.match_at, spaces_regex.
  rewrite match_here_one. cbn [item_matches].
  destruct (isspace c); [|reflexivity].
  destruct tl as [|c' tl]; [reflexivity|].
  rewrite match_here_many1. cbn [item_matches starts_ws run_len andb].
  destruct (isspace c'); [|reflexivity].
  now rewrite match_run.
Qed.

Lemma collapse_scan (s : str) :
  (forall prev, sub_scan spaces_regex [32%N] prev s 0 = collapse_runs false s)
  /\ (forall prev,
        sub_scan spaces_regex [32%N] prev s (run_len s) = collapse_runs true s).
Proof.
  induction s as [|c s [IH0 IHS]].
  - split; reflexivity.
  - assert (H0 : forall prev,
               sub_scan spaces_regex [32%N] prev (c :: s) 0
               = collapse_runs false (c :: s)).
    { intro prev. rewrite sub_scan_0, match_spaces. cbn [collapse_runs].
      change (match s with c' :: _ => isspace c' | [] => false end)
        with (starts_ws s).
      destruct (isspace c); cbn [andb]; [|now rewrite IH0].
      destruct (starts_ws s) eqn:Hs; [|now rewrite IH0].
      cbn [app]. f_equal. apply IHS. }
    split; [exact H0|].
    intro prev. cbn [run_len collapse_runs].
    destruct (isspace c) eqn:Hc.
    + rewrite sub_scan_S. apply IHS.
    + rewrite H0. cbn [collapse_runs]. now rewrite Hc.
Qed.

Lemma RemoveMultipleSpaces_collapse (s : str) :
  RemoveMultipleSpaces_process_string isalnum s
  = Ok (VStr (collapse_runs false s)).
Proof.
  unfold RemoveMultipleSpaces_process_string, str_value, re_sub.
  change (parse (u "\s\s+")) with (Some spaces_regex).
  change (template (u " ")) with (Some [32%N]).
  unfold sub. now rewrite (proj1 (collapse_scan s)).
Qed.

End CollapseFacts.

(** What a collapse leaves: no two whitespace characters in a row, and no
    whitespace at an end that had none. *)

Lemma collapse_runs_cons (inside : bool) (c : char) (tl : str) :
  collapse_runs inside (c :: tl)
  = if isspace c then
      if inside then collapse_runs true tl
      else if starts_ws tl then 32%N :: collapse_runs true tl
           else c :: collapse_runs false tl
    else c :: collapse_runs false tl.
Proof. reflexivity. Qed.

Lemma collapse_inside_starts (s : str) :
  starts_ws (collapse_runs true s) = false.
Proof.
  induction s as [|c s IH]; simpl; [reflexivity|].
  destruct (isspace c) eqn:Hc; [exact IH | exact Hc].
Qed.

Lemma collapse_starts (s : str) :
  starts_ws s = false -> starts_ws (collapse_runs false s) = false.
Proof.
  destruct s as [|c s]; simpl; [reflexivity|].
  intro Hc. now rewrite Hc.
Qed.

Lemma sparse_cons (c : char) (s : str) :
  isspace c && starts_ws s = false -> sparse (c :: s) = sparse s.
Proof. simpl. now intros ->. Qed.

Lemma collapse_sparse (inside : bool) (s : str) :
  sparse (collapse_runs inside s) = true.
Proof.
  revert inside. induction s as [|c s IH]; intro inside; [reflexivity|].
  cbn [collapse_runs].
  destruct (isspace c) eqn:Hc.
  - destruct inside; [apply IH|].
    change (match s with c' :: _ => isspace c' | [] => false end)
      with (starts_ws s).
    destruct (starts_ws s) eqn:Hs.
    + rewrite sparse_cons; [apply IH|].
      rewrite collapse_inside_starts. apply andb_false_r.
    + rewrite sparse_cons; [apply IH|].
      rewrite (collapse_starts s Hs). apply andb_false_r.
  - rewrite sparse_cons; [apply IH|]. now rewrite Hc.
Qed.

Lemma collapse_sparse_id (s : str) :
  sparse s = true -> collapse_runs false s = s.
Proof.
  induction s as [|c s IH]; [reflexivity|].
  cbn [sparse collapse_runs]. intro H.
  apply andb_true_iff in H as [Hc Hs]. apply negb_true_iff in Hc.
  change (match s with c' :: _ => isspace c' | [] => false end)
    with (starts_ws s).
  destruct (isspace c); cbn [andb] in Hc.
  - rewrite Hc. now rewrite IH.
  - now rewrite IH.
Qed.

Lemma ends_ws_cons (c : char) (s : str) :
  ends_ws (c :: s) = match s with [] => isspace c | _ :: _ => ends_ws s end.
Proof.
  unfold ends_ws. simpl rev.
  destruct s as [|x s]; [reflexivity|].
  simpl rev. destruct (rev s); reflexivity.
Qed.

Lemma collapse_nil (inside : bool) (s : str) :
  collapse_runs inside s = [] -> forallb isspace s = true.
Proof.
  revert inside. induction s as [|c s IH]; intro inside; [reflexivity|].
  cbn [collapse_runs forallb].
  destruct (isspace c); [|discriminate].
  destruct inside; [apply IH|].
  destruct (match s with c' :: _ => isspace c' | [] => false end);
    discriminate.
Qed.

Lemma all_space_ends (s : str) :
  s <> [] -> forallb isspace s = true -> ends_ws s = true.
Proof.
  induction s as [|c s IH]; [congruence|].
  intros _ H. cbn [forallb] in H. apply andb_true_iff in H as [Hc Hs].
  rewrite ends_ws_cons. destruct s as [|x s]; [exact Hc|].
  now apply IH.
Qed.

Lemma collapse_ends (inside : bool) (s : str) :
  ends_ws s = false -> ends_ws (collapse_runs inside s) = false.
Proof.
  revert inside. induction s as [|c s IH]; intros inside H; [reflexivity|].
  rewrite ends_ws_cons in H.
  destruct s as [|x s].
  - cbn [collapse_runs]. rewrite H. exact H.
  - assert (Hkeep : forall y b, ends_ws (y :: collapse_runs b (x :: s)) = false).
    { intros y b. rewrite ends_ws_cons.
      destruct (collapse_runs b (x :: s)) eqn:Hnil; [|rewrite <- Hnil; now apply IH].
      apply collapse_nil in Hnil.
      rewrite all_space_ends in H; [discriminate | discriminate | exact Hnil]. }
    rewrite collapse_runs_cons.
    destruct (isspace c); [|apply Hkeep].
    destruct inside; [now apply IH|].
    destruct (starts_ws (x :: s)); apply Hkeep.
Qed.

Lemma collapse_trimmed (s : str) :
  trimmed s = true -> trimmed (collapse_runs false s) = true.
Proof.
  unfold trimmed. intro H. apply andb_true_iff in H as [Hs He].
  apply negb_true_iff in Hs, He.
  now rewrite collapse_starts, collapse_ends.
Qed.

(** Trimming and then collapsing, done twice, is the same as done once. *)
Lemma trim_collapse_twice (s : str) :
  let once := collapse_runs false (strip s) in
  collapse_runs false (strip once) = once.
Proof.
  intro once. unfold once.
  rewrite (strip_id (collapse_runs false (strip s))).
  - apply collapse_sparse_id, collapse_sparse.
  - apply collapse_trimmed, strip_trimmed.
Qed.

Lemma for_each_ext {A B} (f : A -> outcome B) (g : A -> B) (l : list A) :
  (forall x, f x = Ok (g x)) -> for_each f l = Ok (map g l).
Proof.
  intro H. induction l as [|x l IH]; simpl; [reflexivity|].
  now rewrite H, IH.
Qed.

Lemma trim_collapse_str (isalnum : char -> bool) (s : str) :
  Compose [Strip; RemoveMultipleSpaces isalnum] (VStr s)
  = Ok (VStr (collapse_runs false (strip s))).
Proof.
  unfold Compose. cbn [fold_left bind]. rewrite !call_str.
  cbn [process_string Strip derive bind]. rewrite call_str.
  cbn [process_string RemoveMultipleSpaces].
  apply RemoveMultipleSpaces_collapse.
Qed.

Lemma trim_collapse_list (isalnum : char -> bool) (inp : list str) :
  Compose [Strip; RemoveMultipleSpaces isalnum] (VStrs inp)
  = Ok (VStrs (map (fun s => collapse_runs false (strip s)) inp)).
Proof.
  unfold Compose. cbn [fold_left bind]. rewrite call_strs.
  cbn [process_list Strip derive]. unfold default_process_list.
  rewrite on_strs_map.
  rewrite (for_each_ok (fun s => VStr (strip s))). cbn [bind].
  rewrite <- (map_map strip VStr).
  change (VList (map VStr (map strip inp))) with (VStrs (map strip inp)).
  rewrite call_strs. cbn [process_list RemoveMultipleSpaces].
  rewrite on_strs_map.
  rewrite (for_each_ext _ (fun s => VStr (collapse_runs false s)))
    by apply RemoveMultipleSpaces_collapse.
  cbn [bind]. unfold VStrs. now rewrite !map_map.
Qed.

(** C5. Trim followed by multi-space collapse is idempotent: on a string,
    and on a list of strings, the pipeline returns a value on which it
    returns that same value again. *)
Theorem trim_collapse_idempotent (isalnum : char -> bool)
    (pipeline := Compose [Strip; RemoveMultipleSpaces isalnum]) :
  (forall s, exists once,
      pipeline (VStr s) = Ok (VStr once)
      /\ pipeline (VStr once) = Ok (VStr once))
  /\ (forall inp, exists once,
        pipeline (VStrs inp) = Ok (VStrs once)
        /\ pipeline (VStrs once) = Ok (VStrs once)).
Proof.
  unfold pipeline. split.
  - intro s. exists (collapse_runs false (strip s)).
    rewrite !trim_collapse_str. split; [reflexivity|].
    now rewrite trim_collapse_twice.
  - intro inp. exists (map (fun s => collapse_runs false (strip s)) inp).
    rewrite !trim_collapse_list. split; [reflexivity|].
    rewrite map_map. do 2 f_equal.
    apply map_ext. intro s. apply trim_collapse_twice.
Qed.

(** ** SubstituteWords, RemoveSpecificWords *)

Lemma is_in_false_neq (c x : char) (l : str) :
  is_in c l = false -> is_in x l = true -> ceq c x = false.
Proof.
  intros Hc Hx. destruct (ceq c x) eqn:E; [|reflexivity].
  apply N.eqb_eq in E. subst x. congruence.
Qed.

Lemma is_in_In (c : char) (l : str) : is_in c l = true -> In c l.
Proof.
  intro H. apply existsb_exists in H as (x & Hin & Hx).
  apply N.eqb_eq in Hx. now subst x.
Qed.

(** An escaped character is never a letter or a digit, so the backslash
    before it cannot start a class or an anchor. *)
Lemma special_not_alnum (c : char) :
  is_in c special_chars = true ->
  ceq c 98 = false /\ ceq c 115 = false /\ ascii_alnum c = false.
Proof.
  intro H. apply is_in_In in H. cbv in H.
  repeat (destruct H as [<- | H]; [now cbv|]).
  contradiction.
Qed.

(** A character left unescaped has no meaning of its own in a pattern. *)
Lemma plain_not_meta (c : char) :
  is_in c special_chars = false ->
  ceq c 92 = false /\ ceq c 91 = false /\ ceq c 42 = false
  /\ ceq c 43 = false /\ is_in c other_meta = false.
Proof.
  intro H. repeat split;
    try (apply (is_in_false_neq c _ special_chars H); reflexivity).
  destruct (is_in c other_meta) eqn:E; [|reflexivity].
  apply is_in_In in E. cbv in E.
  repeat (destruct E as [<- | E]; [now cbv in H|]).
  contradiction.
Qed.

Lemma parse_escape (key : str) (acc : list atom) (rest : str) :
  parse_from (Top, acc) (escape key ++ rest)
  = parse_from (Top, rev (literal key) ++ acc) rest.
Proof.
  revert acc. induction key as [|c key IH]; intro acc; [reflexivity|].
  unfold escape. cbn [flat_map]. fold (escape key).
  cbn [literal map rev]. fold (literal key).
  rewrite <- !app_assoc. cbn [app].
  destruct (is_in c special_chars) eqn:Hc.
  - apply special_not_alnum in Hc as (Hb & Hs & Ha).
    cbn [app parse_from parse_step ceq N.eqb Pos.eqb fst snd].
    rewrite Hb, Hs, Ha. apply IH.
  - apply plain_not_meta in Hc as (H92 & H91 & H42 & H43 & Hm).
    cbn [app parse_from parse_step].
    rewrite H92, H91, H42, H43, Hm. apply IH.
Qed.

(** The pattern built for a key is the key itself, character by character,
    between two word boundaries. *)
Lemma parse_word_pattern (key : str) :
  parse (word_pattern key) = Some (word_regex key).
Proof.
  unfold parse, word_pattern.
  change (u "\b") with [92%N; 98%N].
  cbn [app parse_from parse_step ceq N.eqb Pos.eqb].
  rewrite parse_escape.
  cbn [parse_from parse_step ceq N.eqb Pos.eqb fst snd rev].
  unfold word_regex.
  rewrite rev_app_distr, rev_involutive. reflexivity.
Qed.

Lemma match_word (isalnum : char -> bool) (key : str) adv prev (s : str) :
  match_at isalnum (word_regex key) adv prev s
  = if at_boundary isalnum prev s && starts_with key s
       && at_boundary isalnum (prev_after prev key) (skipn (length key) s)
    then if adv && (length key =? 0) then None else Some (length key)
    else None.
Proof.
  unfold match_at, word_regex. cbn [match_here].
  destruct (at_boundary isalnum prev s); [|reflexivity].
  rewrite match_literal. cbn [andb].
  destruct (starts_with key s); [|reflexivity].
  cbn [match_here andb Nat.add].
  now destruct (at_boundary isalnum (prev_after prev key) (skipn (length key) s)).
Qed.

Lemma str_eqb_eq (a b : str) : str_eqb a b = true <-> a = b.
Proof.
  revert b. induction a as [|x a IH]; intros [|y b]; simpl;
    try (split; [discriminate | congruence]); [tauto|].
  rewrite andb_true_iff, IH. unfold ceq. rewrite N.eqb_eq.
  split; [intros [-> ->]; reflexivity | intro H; now injection H].
Qed.

Lemma dict_set_values (d : list (str * str)) (k v : str) :
  Forall (fun kv => snd kv = v) d ->
  Forall (fun kv => snd kv = v) (dict_set d k v).
Proof.
  induction d as [|[k' v'] d IH]; intro H; simpl.
  - now constructor.
  - inversion H as [|? ? Hv Hd]; subst.
    destruct (str_eqb k' k); constructor; auto.
Qed.

Lemma dict_set_keys (d : list (str * str)) (k v w : str) :
  In w (map fst (dict_set d k v)) <-> w = k \/ In w (map fst d).
Proof.
  induction d as [|[k' v'] d IH]; simpl.
  - split; [intros [<- | []]; now left | intros [-> | []]; now left].
  - destruct (str_eqb k' k) eqn:E; simpl.
    + apply str_eqb_eq in E. subst k'. intuition congruence.
    + rewrite IH. tauto.
Qed.

Lemma removal_mapping_from (words : list str) (d : list (str * str)) :
  let result := fold_left (fun d word => dict_set d word (u " ")) words d in
  (Forall (fun kv => snd kv = u " ") d ->
   Forall (fun kv => snd kv = u " ") result)
  /\ (forall w, In w (map fst result) <-> In w words \/ In w (map fst d)).
Proof.
  revert d. induction words as [|x words IH]; intro d; simpl.
  - split; [auto | intro w; tauto].
  - destruct (IH (dict_set d x (u " "))) as [Hv Hk]. split.
    + intro H. now apply Hv, dict_set_values.
    + intro w. rewrite Hk, dict_set_keys. intuition congruence.
Qed.

Lemma removal_mapping_values (words : list str) :
  Forall (fun kv => snd kv = u " ") (removal_mapping words).
Proof. apply (removal_mapping_from words []). constructor. Qed.

Lemma removal_mapping_keys (words : list str) (w : str) :
  In w (map fst (removal_mapping words)) <-> In w words.
Proof.
  unfold removal_mapping.
  rewrite (proj2 (removal_mapping_from words [])). simpl. tauto.
Qed.

Lemma sub_each_words (isalnum : char -> bool) (substitutions : list (str * str))
    (s : str) :
  Forall (fun kv => template (snd kv) = Some (snd kv)) substitutions ->
  sub_each isalnum word_pattern substitutions s
  = Ok (fold_left (fun s kv => sub isalnum (word_regex (fst kv)) (snd kv) s)
                  substitutions s).
Proof.
  unfold sub_each. intro H. revert s.
  induction H as [|[k v] l Hv Hl IH]; intro s; [reflexivity|].
  cbn [fold_left bind fst snd] in *.
  unfold re_sub at 2. rewrite parse_word_pattern, Hv. apply IH.
Qed.

Lemma fold_left_ext_in {A B} (f g : A -> B -> A) (l : list B) (a : A) :
  (forall x b, In b l -> f x b = g x b) -> fold_left f l a = fold_left g l a.
Proof.
  revert a. induction l as [|b l IH]; intros a H; [reflexivity|].
  simpl. rewrite H by now left. apply IH. intros. apply H. now right.
Qed.

(** ** The collection-aware transforms *)

(** The four transforms that override [process_list] with something other
    than the per-element default, each told apart from it on one list. *)

Lemma ReduceToSingleSentence_collection_aware :
  ~ per_element (ReduceToSingleSentence default_word_delimiter).
Proof. intro H. specialize (H [VStr (u "")]). cbv in H. discriminate H. Qed.

Lemma RemoveEmptyStrings_collection_aware : ~ per_element RemoveEmptyStrings.
Proof. intro H. specialize (H [VStr (u " a")]). cbv in H. discriminate H. Qed.

Lemma ReduceToListOfListOfWords_collection_aware :
  ~ per_element (ReduceToListOfListOfWords default_word_delimiter).
Proof. intro H. specialize (H [VStr (u "a")]). cbv in H. discriminate H. Qed.

Lemma ReduceToListOfListOfChars_collection_aware :
  ~ per_element ReduceToListOfListOfChars.
Proof. intro H. specialize (H [VStr (u "a")]). cbv in H. discriminate H. Qed.

(** With the empty delimiter [str.split] refuses every sentence. *)
Lemma empty_delimiter_refused (s : str) :
  call (ReduceToListOfListOfWords []) (VStr s) = Raise ValueError.
Proof. reflexivity. Qed.

(** The pipeline the word error rate uses by default, on one sentence. *)
Example default_pipeline_on_sentence :
  Compose [RemoveMultipleSpaces ascii_alnum; Strip;
           ReduceToListOfListOfWords default_word_delimiter]
          (VStr (u "  This   is a test "))
  = Ok (VTokens [[u "This"; u "is"; u "a"; u "test"]]).
Proof. reflexivity. Qed.

(** ** The statements at concrete inputs *)

Lemma singleton_list_interchangeable_witness :
  per_element Strip
  /\ call Strip (VStrs [u "  hello "])
     = (v <- call Strip (VStr (u "  hello ")) ;; Ok (VList [v])).
Proof.
  split.
  - intro inp. reflexivity.
  - apply (singleton_list_interchangeable Strip (u "  hello ")).
    intro inp. reflexivity.
Defined.

Lemma invalid_input_kind_witness :
  is_str (VInt 5) = false /\ is_list (VInt 5) = false
  /\ call Strip (VInt 5) = Raise ValueError.
Proof.
  split; [reflexivity|]. split; [reflexivity|].
  apply (invalid_input_kind Strip (VInt 5)); reflexivity.
Defined.

Lemma reduce_to_tokens_witness :
  default_word_delimiter <> []
  /\ call (ReduceToListOfListOfWords default_word_delimiter)
       (VStr (u "this  is a test"))
     = Ok (VTokens [[u "this"; u "is"; u "a"; u "test"]])
  /\ call (ReduceToListOfListOfWords default_word_delimiter)
       (VStrs [u "a b"; u ""])
     = Ok (VTokens [[u "a"; u "b"]; []]).
Proof.
  assert (Hd : default_word_delimiter <> []) by discriminate.
  split; [exact Hd|].
  destruct (reduce_to_tokens default_word_delimiter Hd)
    as (Hstr & _ & Hlist & _).
  split.
  - apply (Hstr (u "this  is a test")).
  - apply (Hlist [u "a b"; u ""]). discriminate.
Defined.

Lemma sentence_join_witness :
  (exists s, In s [u "a"; u ""; u "b c"] /\ s <> [])
  /\ call (ReduceToSingleSentence (u " ")) (VStrs [u "a"; u ""; u "b c"])
     = Ok (VStrs [u "a b c"])
  /\ (forall s, In s [u ""; u ""] -> s = [])
  /\ call (ReduceToSingleSentence (u " ")) (VStrs [u ""; u ""])
     = Ok (VStrs []).
Proof.
  destruct (sentence_join (u " ")) as (_ & Hsome & Hnone).
  assert (H1 : exists s, In s [u "a"; u ""; u "b c"] /\ s <> []).
  { exists (u "a"). split; [now left | discriminate]. }
  assert (H2 : forall s, In s [u ""; u ""] -> s = []).
  { intros s [<- | [<- | []]]; reflexivity. }
  split; [exact H1|]. split; [exact (Hsome _ H1)|].
  split; [exact H2 | exact (Hnone _ H2)].
Defined.

Lemma bracketed_token_removal_witness :
  forallb (fun c => negb (opener c)) (u "no spans>") = true
  /\ call (RemoveKaldiNonWords ascii_alnum) (VStr (u "no spans>"))
     = Ok (VStr (u "no spans>"))
  /\ call (RemoveKaldiNonWords ascii_alnum) (VStr (u "a <unk> b [laugh] c"))
     = Ok (VStr (u "a  b  c")).
Proof.
  destruct (bracketed_token_removal ascii_alnum (u "no spans>"))
    as (_ & Hplain & _).
  split; [reflexivity|]. split; [apply Hplain; reflexivity|].
  apply (bracketed_token_removal ascii_alnum (u "a <unk> b [laugh] c")).
Defined.

Lemma empty_string_filter_witness :
  trimmed (u "a b") = true
  /\ call RemoveEmptyStrings (VStr (u "a b")) = Ok (VStr (u "a b"))
  /\ (exists a b,
        u "  a b " = a ++ u "a b" ++ b
        /\ forallb isspace a = true /\ forallb isspace b = true
        /\ trimmed (u "a b") = true
        /\ call RemoveEmptyStrings (VStr (u "  a b ")) = Ok (VStr (u "a b")))
  /\ call RemoveEmptyStrings (VStrs [u " a"; u "  "; u ""; u "b"])
     = Ok (VStrs [u " a"; u "b"]).
Proof.
  destruct empty_string_filter as (Hlist & _ & Hsplit & _ & Hid).
  split; [reflexivity|]. split; [apply Hid; reflexivity|]. split.
  - destruct (Hsplit (u "  a b ")) as (a & t & b & Hs & Ha & Hb & Ht & Hcall).
    assert (Et : t = u "a b").
    { assert (E : Ok (VStr t) = Ok (VStr (u "a b")))
        by (rewrite <- Hcall; reflexivity).
      now injection E. }
    subst t. exists a, b. now repeat split.
  - apply (Hlist [u " a"; u "  "; u ""; u "b"]).
Defined.

(** ** Compose *)

Lemma thread_bind (ts : list AbstractTransform) (m : outcome value) :
  fold_left (fun text tr => v <- text ;; call tr v) ts m
  = (v <- m ;; Compose ts v).
Proof.
  unfold Compose. destruct m as [v| e |]; [reflexivity | |];
    induction ts as [|t ts IH]; simpl; auto.
Qed.

Lemma Compose_cons (t : AbstractTransform) (ts : list AbstractTransform)
    (text : value) :
  Compose (t :: ts) text = (v <- call t text ;; Compose ts v).
Proof. unfold Compose at 1. simpl. apply thread_bind. Qed.

(** X1. A pipeline split in two is the first part followed by the second,
    whatever the split; the empty pipeline returns its input. *)
Theorem Compose_app (a b : list AbstractTransform) (text : value) :
  Compose (a ++ b) text = (v <- Compose a text ;; Compose b v)
  /\ Compose [] text = Ok text.
Proof.
  split; [|reflexivity].
  unfold Compose at 1 2. rewrite fold_left_app. apply thread_bind.
Qed.

(** X2. When a transform of a pipeline raises, the pipeline raises that
    error, whatever transforms come after it. *)
Theorem Compose_raises (a b : list AbstractTransform) (t : AbstractTransform)
    (text v : value) (e : exn) :
  Compose a text = Ok v -> call t v = Raise e ->
  Compose (a ++ t :: b) text = Raise e.
Proof.
  intros Ha Ht.
  unfold Compose at 1. rewrite fold_left_app, thread_bind.
  fold (Compose a text). rewrite Ha. cbn [bind].
  rewrite Compose_cons, Ht. reflexivity.
Qed.

(** ** The per-element default on lists *)

Lemma for_each_length {A B} (f : A -> outcome B) (l : list A) (l' : list B) :
  for_each f l = Ok l' -> length l' = length l.
Proof.
  revert l'. induction l as [|x l IH]; intros l' H; simpl in H.
  - now injection H as <-.
  - destruct (f x) as [y| |]; try discriminate. cbn [bind] in H.
    destruct (for_each f l) as [ys| |]; try discriminate.
    cbn [bind] in H. injection H as <-. simpl. f_equal. now apply IH.
Qed.

(** X3. A per-element transform keeps the number of sentences: when its call
    on a list of strings returns, it returns a list of the same length. *)
Theorem per_element_keeps_count (t : AbstractTransform) (inp : list str)
    (v : value) :
  per_element t -> call t (VStrs inp) = Ok v ->
  exists out, v = VList out /\ length out = length inp.
Proof.
  intros Hdef H. rewrite call_strs, Hdef in H.
  unfold default_process_list in H. rewrite on_strs_map in H.
  destruct (for_each (process_string t) inp) as [vs| |] eqn:E;
    try discriminate.
  cbn [bind] in H. injection H as <-.
  exists vs. split; [reflexivity | now apply for_each_length in E].
Qed.

Lemma for_each_strs (ps : str -> outcome value) (inp : list str) :
  (forall s, exists s', ps s = Ok (VStr s')) ->
  exists out, Forall2 (fun s s' => ps s = Ok (VStr s')) inp out
              /\ for_each ps inp = Ok (map VStr out).
Proof.
  intro H. induction inp as [|s inp (out & Hout & Hfe)].
  - exists []. split; [constructor | reflexivity].
  - destruct (H s) as (s' & Hs). exists (s' :: out). split.
    + now constructor.
    + simpl. now rewrite Hs, Hfe.
Qed.

(** X4. A pipeline of per-element transforms from strings to strings works
    on a list sentence by sentence: its result on the list is the list of
    its results on the elements. *)
Theorem Compose_per_element (ts : list AbstractTransform) (inp : list str) :
  Forall (fun t => per_element t /\ str_transform t) ts ->
  Compose ts (VStrs inp)
  = (vs <- for_each (fun s => Compose ts (VStr s)) inp ;; Ok (VList vs)).
Proof.
  intro H. revert inp. induction H as [|t ts [Hdef Hstr] Hts IH]; intro inp.
  - unfold Compose. simpl. unfold VStrs. now rewrite for_each_ok.
  - rewrite Compose_cons, call_strs, Hdef.
    unfold default_process_list. rewrite on_strs_map.
    destruct (for_each_strs (process_string t) inp Hstr) as (out & Hout & Hfe).
    rewrite Hfe. cbn [bind]. fold (VStrs out). rewrite IH. f_equal.
    clear Hfe. induction Hout as [|s s' inp out Hs Hout IHout];
      [reflexivity|].
    simpl. rewrite Compose_cons, call_str, Hs. cbn [bind].
    now rewrite IHout.
Qed.

(** X5. The base class itself: it raises [NotImplementedError] on every
    string and on every non-empty list of strings, and returns the empty list
    on the empty list, where [process_string] is never reached. *)
Theorem abstract_transform_calls :
  (forall s, call abstract_transform (VStr s) = Raise NotImplementedError)
  /\ (forall s inp,
        call abstract_transform (VStrs (s :: inp)) = Raise NotImplementedError)
  /\ call abstract_transform (VStrs []) = Ok (VStrs []).
Proof.
  split; [reflexivity|]. split; [|reflexivity].
  intros s inp. rewrite call_strs.
  cbn [process_list abstract_transform derive].
  unfold default_process_list. now rewrite on_strs_map.
Qed.

(** ** Strip and RemoveMultipleSpaces, further *)

(** X6. [Strip] returns the middle of the split of its input into a
    whitespace prefix, a part with no whitespace at either end, and a
    whitespace suffix; it changes nothing exactly on the strings with no
    whitespace at either end. *)
Theorem Strip_middle (s : str) :
  (exists a t b,
      s = a ++ t ++ b
      /\ forallb isspace a = true /\ forallb isspace b = true
      /\ trimmed t = true
      /\ call Strip (VStr s) = Ok (VStr t))
  /\ (call Strip (VStr s) = Ok (VStr s) <-> trimmed s = true).
Proof.
  split.
  - destruct (strip_split s) as (a & b & Hs & Ha & Hb).
    exists a, (strip s), b. repeat split; try assumption.
    apply strip_trimmed.
  - rewrite call_str. cbn [process_string Strip derive]. split.
    + intro H. injection H as H. rewrite <- H at 1. apply strip_trimmed.
    + intro H. now rewrite strip_id.
Qed.

Lemma collapse_length (inside : bool) (s : str) :
  length (collapse_runs inside s) <= length s.
Proof.
  revert inside. induction s as [|c s IH]; intro inside; [reflexivity|].
  rewrite collapse_runs_cons.
  pose proof (IH true) as Ht. pose proof (IH false) as Hf.
  destruct (isspace c); [|cbn [length]; lia].
  destruct inside; [cbn [length]; lia|].
  destruct (starts_ws s); cbn [length]; lia.
Qed.

(** X7. The result of [RemoveMultipleSpaces] has no two whitespace
    characters in a row and is no longer than the input; the transform
    changes nothing exactly on the strings that have none. *)
Theorem RemoveMultipleSpaces_sparse (isalnum : char -> bool) (s : str) :
  exists t,
    call (RemoveMultipleSpaces isalnum) (VStr s) = Ok (VStr t)
    /\ sparse t = true
    /\ length t <= length s
    /\ (t = s <-> sparse s = true).
Proof.
  exists (collapse_runs false s). split; [|split; [|split]].
  - rewrite call_str. apply RemoveMultipleSpaces_collapse.
  - apply collapse_sparse.
  - apply collapse_length.
  - split.
    + intro H. rewrite <- H. apply collapse_sparse.
    + apply collapse_sparse_id.
Qed.

(** Trimming and collapsing commute. *)

Lemma drop_while_app_all (p : char -> bool) (a x : str) :
  forallb p a = true -> drop_while p (a ++ x) = drop_while p x.
Proof.
  induction a as [|c a IH]; simpl; [reflexivity|].
  intro H. apply andb_true_iff in H as [Hc Ha]. rewrite Hc. now apply IH.
Qed.

Lemma strip_padded (a t b : str) :
  forallb isspace a = true -> forallb isspace b = true -> trimmed t = true ->
  strip (a ++ t ++ b) = t.
Proof.
  intros Ha Hb Ht. unfold trimmed in Ht.
  apply andb_true_iff in Ht as [Hs He]. apply negb_true_iff in Hs, He.
  unfold strip, lstrip, rstrip. rewrite (drop_while_app_all _ _ _ Ha).
  destruct t as [|c t].
  - simpl. rewrite (proj2 (drop_while_nil isspace b) Hb). reflexivity.
  - rewrite (drop_while_id ((c :: t) ++ b)) by exact Hs.
    rewrite rev_app_distr, drop_while_app_all by now rewrite forallb_rev.
    rewrite (drop_while_id (rev (c :: t)) He). apply rev_involutive.
Qed.

Lemma collapse_all_space (inside : bool) (s : str) :
  forallb isspace s = true -> forallb isspace (collapse_runs inside s) = true.
Proof.
  revert inside. induction s as [|c s IH]; intros inside H; [reflexivity|].
  cbn [forallb] in H. apply andb_true_iff in H as [Hc Hs].
  rewrite collapse_runs_cons, Hc.
  destruct inside; [now apply IH|].
  destruct (starts_ws s); cbn [forallb]; rewrite ?Hc; now rewrite IH.
Qed.

Lemma collapse_mode (s : str) :
  starts_ws s = false -> collapse_runs true s = collapse_runs false s.
Proof.
  destruct s as [|c s]; [reflexivity|].
  cbn [starts_ws]. intro Hc. rewrite !collapse_runs_cons. now rewrite Hc.
Qed.

Lemma collapse_prefix (inside : bool) (a x : str) :
  forallb isspace a = true -> starts_ws x = false ->
  exists a', forallb isspace a' = true
             /\ collapse_runs inside (a ++ x) = a' ++ collapse_runs false x.
Proof.
  intros Ha Hx. revert inside.
  induction a as [|c a IH]; intro inside.
  - exists []. split; [reflexivity|]. simpl.
    destruct inside; [now apply collapse_mode | reflexivity].
  - cbn [forallb] in Ha. apply andb_true_iff in Ha as [Hc Ha].
    specialize (IH Ha). cbn [app]. rewrite collapse_runs_cons, Hc.
    destruct inside; [apply IH|].
    destruct (starts_ws (a ++ x)).
    + destruct (IH true) as (a' & Ha' & E). exists (32%N :: a').
      split; [exact Ha' | now rewrite E].
    + destruct (IH false) as (a' & Ha' & E). exists (c :: a').
      split; [cbn [forallb]; now rewrite Hc | now rewrite E].
Qed.

Lemma collapse_suffix (inside : bool) (t b : str) :
  ends_ws t = false -> forallb isspace b = true ->
  exists b', forallb isspace b' = true
             /\ collapse_runs inside (t ++ b) = collapse_runs inside t ++ b'.
Proof.
  intros Ht Hb. revert inside Ht.
  induction t as [|c t IH]; intros inside Ht.
  - exists (collapse_runs inside b). split; [now apply collapse_all_space|].
    reflexivity.
  - rewrite ends_ws_cons in Ht. destruct t as [|x t].
    + cbn [app]. rewrite !collapse_runs_cons, Ht.
      exists (collapse_runs false b).
      split; [now apply collapse_all_space | reflexivity].
    + pose proof (fun inside => IH inside Ht) as IH'. clear IH.
      rename IH' into IH.
      change ((c :: x :: t) ++ b) with (c :: (x :: t) ++ b).
      rewrite !collapse_runs_cons.
      change (starts_ws ((x :: t) ++ b)) with (starts_ws (x :: t)).
      destruct (isspace c).
      * destruct inside; [apply IH|].
        destruct (starts_ws (x :: t)).
        -- destruct (IH true) as (b' & Hb' & E). exists b'.
           split; [exact Hb' | now rewrite E].
        -- destruct (IH false) as (b' & Hb' & E). exists b'.
           split; [exact Hb' | now rewrite E].
      * destruct (IH false) as (b' & Hb' & E). exists b'.
        split; [exact Hb' | now rewrite E].
Qed.

Lemma strip_all_space (s : str) : forallb isspace s = true -> strip s = [].
Proof.
  intro H. pose proof (strip_nonempty s) as Hn. rewrite H in Hn.
  now destruct (strip s).
Qed.

Lemma collapse_strip_commute (s : str) :
  collapse_runs false (strip s) = strip (collapse_runs false s).
Proof.
  destruct (strip_split s) as (a & b & Hs & Ha & Hb).
  pose proof (strip_trimmed s) as Ht.
  destruct (strip s) as [|c t] eqn:E.
  - symmetry. apply strip_all_space, collapse_all_space.
    rewrite Hs. simpl. now rewrite forallb_app, Ha, Hb.
  - assert (Hse : starts_ws (c :: t) = false /\ ends_ws (c :: t) = false).
    { unfold trimmed in Ht. apply andb_true_iff in Ht as [H1 H2].
      now apply negb_true_iff in H1, H2. }
    destruct Hse as [Hst Hen].
    destruct (collapse_prefix false a ((c :: t) ++ b) Ha Hst) as (a' & Ha' & E1).
    destruct (collapse_suffix false (c :: t) b Hen Hb) as (b' & Hb' & E2).
    rewrite Hs, E1, E2.
    symmetry. apply strip_padded; try assumption.
    now apply collapse_trimmed.
Qed.

Lemma collapse_trim_str (isalnum : char -> bool) (s : str) :
  Compose [RemoveMultipleSpaces isalnum; Strip] (VStr s)
  = Ok (VStr (strip (collapse_runs false s))).
Proof.
  rewrite Compose_cons, call_str. cbn [process_string RemoveMultipleSpaces].
  rewrite RemoveMultipleSpaces_collapse. reflexivity.
Qed.

Lemma collapse_trim_list (isalnum : char -> bool) (inp : list str) :
  Compose [RemoveMultipleSpaces isalnum; Strip] (VStrs inp)
  = Ok (VStrs (map (fun s => strip (collapse_runs false s)) inp)).
Proof.
  rewrite Compose_cons, call_strs. cbn [process_list RemoveMultipleSpaces].
  rewrite on_strs_map.
  rewrite (for_each_ext _ (fun s => VStr (collapse_runs false s)))
    by apply RemoveMultipleSpaces_collapse.
  cbn [bind]. rewrite <- (map_map (collapse_runs false) VStr).
  fold (VStrs (map (collapse_runs false) inp)).
  rewrite Compose_cons, call_strs. cbn [process_list Strip derive].
  unfold default_process_list. rewrite on_strs_map.
  rewrite (for_each_ok (fun s => VStr (strip s))). cbn [bind].
  unfold Compose, VStrs. cbn [fold_left]. now rewrite !map_map.
Qed.

Lemma Strip_str_transform : str_transform Strip.
Proof. intro s. now exists (strip s). Qed.

Lemma RemoveMultipleSpaces_str_transform (isalnum : char -> bool) :
  str_transform (RemoveMultipleSpaces isalnum).
Proof.
  intro s. exists (collapse_runs false s). apply RemoveMultipleSpaces_collapse.
Qed.

(** X8. Trimming and collapsing commute: the pipeline that collapses and
    then trims returns what the one that trims and then collapses returns,
    on every string and on every list of strings. *)
Theorem trim_collapse_commute (isalnum : char -> bool) :
  (forall s,
      Compose [RemoveMultipleSpaces isalnum; Strip] (VStr s)
      = Compose [Strip; RemoveMultipleSpaces isalnum] (VStr s))
  /\ (forall inp,
        Compose [RemoveMultipleSpaces isalnum; Strip] (VStrs inp)
        = Compose [Strip; RemoveMultipleSpaces isalnum] (VStrs inp)).
Proof.
  assert (Hstr : forall s,
             Compose [RemoveMultipleSpaces isalnum; Strip] (VStr s)
             = Compose [Strip; RemoveMultipleSpaces isalnum] (VStr s)).
  { intro s. rewrite collapse_trim_str, trim_collapse_str.
    now rewrite collapse_strip_commute. }
  split; [exact Hstr|].
  intro inp. rewrite collapse_trim_list, trim_collapse_list.
  do 2 f_equal. apply map_ext. intro s.
  now rewrite collapse_strip_commute.
Qed.

(** ** The collection-aware transforms, further *)

Lemma RemoveEmptyStrings_filter (inp : list str) :
  call RemoveEmptyStrings (VStrs inp)
  = Ok (VStrs (filter (fun s => nonempty (strip s)) inp)).
Proof.
  rewrite call_strs. simpl process_list. rewrite on_strs_map. simpl.
  now rewrite (select_ok (fun s => nonempty (strip s))).
Qed.

Lemma filter_filter {A} (f : A -> bool) (l : list A) :
  filter f (filter f l) = filter f l.
Proof.
  induction l as [|x l IH]; simpl; [reflexivity|].
  destruct (f x) eqn:E; simpl; [rewrite E; now f_equal | exact IH].
Qed.

(** X9. On a list the empty-string filter returns a list with no element
    that is empty or all whitespace, no longer than the input, and applying
    the filter to that result returns it unchanged. *)
Theorem RemoveEmptyStrings_idempotent (inp : list str) :
  exists out,
    call RemoveEmptyStrings (VStrs inp) = Ok (VStrs out)
    /\ Forall (fun s => forallb isspace s = false) out
    /\ length out <= length inp
    /\ call RemoveEmptyStrings (VStrs out) = Ok (VStrs out).
Proof.
  exists (filter (fun s => nonempty (strip s)) inp).
  split; [apply RemoveEmptyStrings_filter|]. split; [|split].
  - apply Forall_forall. intros s Hs. apply filter_In in Hs as [_ Hs].
    rewrite strip_nonempty in Hs. now apply negb_true_iff in Hs.
  - apply filter_length_le.
  - now rewrite RemoveEmptyStrings_filter, filter_filter.
Qed.

Lemma str_join_nonempty (sep x : str) (l : list str) :
  x <> [] -> str_join sep (x :: l) <> [].
Proof.
  intro Hx. destruct l as [|y l]; [exact Hx|].
  rewrite str_join_cons. destruct x; [congruence | discriminate].
Qed.

Lemma ReduceToSingleSentence_list (word_delimiter : str) (inp : list str) :
  call (ReduceToSingleSentence word_delimiter) (VStrs inp)
  = Ok (VStrs match filter nonempty inp with
               | [] => []
               | x :: l => [str_join word_delimiter (x :: l)]
               end).
Proof. apply join_strs. Qed.

(** X10. On a list the sentence join returns at most one sentence, never an
    empty one, and applying the join to that result returns it unchanged. *)
Theorem ReduceToSingleSentence_idempotent (word_delimiter : str)
    (inp : list str) :
  exists out,
    call (ReduceToSingleSentence word_delimiter) (VStrs inp) = Ok (VStrs out)
    /\ length out <= 1
    /\ Forall (fun s => s <> []) out
    /\ call (ReduceToSingleSentence word_delimiter) (VStrs out)
       = Ok (VStrs out).
Proof.
  rewrite ReduceToSingleSentence_list.
  destruct (filter nonempty inp) as [|x l] eqn:E.
  - exists []. repeat split; auto.
  - assert (Hx : x <> []).
    { assert (Hin : In x (filter nonempty inp)) by (rewrite E; now left).
      apply filter_In in Hin as [_ Hin]. now destruct x. }
    pose proof (str_join_nonempty word_delimiter x l Hx) as Hj.
    exists [str_join word_delimiter (x :: l)].
    split; [reflexivity|]. split; [simpl; lia|]. split.
    + now repeat constructor.
    + rewrite ReduceToSingleSentence_list.
      destruct (str_join word_delimiter (x :: l)); [congruence | reflexivity].
Qed.

(** Splitting at a one-character delimiter. *)

Lemma split_char_cons (d c : char) (s cur : str) :
  split_scan [d] (c :: s) 0 cur
  = if ceq d c then cur :: split_scan [d] s 0 []
    else split_scan [d] s 0 (cur ++ [c]).
Proof. cbn [split_scan starts_with]. now rewrite andb_true_r. Qed.

Lemma split_char_concat (d : char) (s cur : str) :
  concat (split_scan [d] s 0 cur)
  = cur ++ filter (fun c => negb (ceq c d)) s.
Proof.
  revert cur. induction s as [|c s IH]; intro cur.
  - simpl. now rewrite !app_nil_r.
  - rewrite split_char_cons. cbn [filter]. rewrite (ceq_sym c d).
    destruct (ceq d c); cbn [negb concat].
    + now rewrite IH.
    + rewrite IH. now rewrite <- app_assoc.
Qed.

Lemma split_char_free (d : char) (s cur : str) :
  ~ In d cur -> Forall (fun w => ~ In d w) (split_scan [d] s 0 cur).
Proof.
  revert cur. induction s as [|c s IH]; intros cur Hcur.
  - now repeat constructor.
  - rewrite split_char_cons. destruct (ceq d c) eqn:E.
    + constructor; [exact Hcur | apply IH; intros []].
    + apply IH. intro H. apply in_app_or in H as [H | [H | []]]; [auto|].
      subst c. unfold ceq in E. now rewrite N.eqb_refl in E.
Qed.

Lemma concat_filter_nonempty (l : list str) :
  concat (filter nonempty l) = concat l.
Proof.
  induction l as [|x l IH]; [reflexivity|].
  destruct x; simpl; now rewrite IH.
Qed.

(** X11. With a one-character delimiter, no token of the word reduction is
    empty or holds the delimiter, and the tokens put together are the
    sentence without its delimiters. *)
Theorem words_tokens (d : char) (s : str) :
  exists tokens,
    call (ReduceToListOfListOfWords [d]) (VStr s) = Ok (VTokens [tokens])
    /\ Forall (fun w => w <> [] /\ ~ In d w) tokens
    /\ concat tokens = filter (fun c => negb (ceq c d)) s.
Proof.
  exists (words [d] s). split; [reflexivity|]. split.
  - apply Forall_forall. intros w Hw. unfold words in Hw.
    apply filter_In in Hw as [Hin Hne]. split; [now destruct w|].
    pose proof (split_char_free d s [] (fun H => H)) as Hfree.
    rewrite Forall_forall in Hfree. now apply Hfree.
  - unfold words. now rewrite concat_filter_nonempty, split_char_concat.
Qed.

(** X12. The character reduction loses nothing: its tokens are the
    characters of the sentence, one each and in order. *)
Theorem chars_tokens (s : str) :
  exists tokens,
    call ReduceToListOfListOfChars (VStr s) = Ok (VTokens [tokens])
    /\ concat tokens = s
    /\ Forall (fun w => length w = 1) tokens
    /\ length tokens = length s.
Proof.
  exists (chars s). split; [reflexivity|]. unfold chars. split; [|split].
  - induction s as [|c s IH]; simpl; [reflexivity | now rewrite IH].
  - apply Forall_forall. intros w Hw. apply in_map_iff in Hw as (c & <- & _).
    reflexivity.
  - apply length_map.
Qed.

Lemma split_char_app (d : char) (a b cur : str) :
  split_scan [d] (a ++ d :: b) 0 cur
  = split_scan [d] a 0 cur ++ split_scan [d] b 0 [].
Proof.
  revert cur. induction a as [|c a IH]; intro cur.
  - cbn [app]. rewrite split_char_cons. unfold ceq. now rewrite N.eqb_refl.
  - cbn [app]. rewrite !split_char_cons.
    destruct (ceq d c); rewrite IH; reflexivity.
Qed.

Lemma words_app (d : char) (a b : str) :
  words [d] (a ++ d :: b) = words [d] a ++ words [d] b.
Proof. unfold words. now rewrite split_char_app, filter_app. Qed.

Lemma words_join (d : char) (l : list str) :
  words [d] (str_join [d] l) = concat (map (words [d]) l).
Proof.
  induction l as [|x l IH]; [reflexivity|].
  destruct l as [|y l].
  - simpl. now rewrite app_nil_r.
  - rewrite str_join_cons. cbn [app map concat].
    now rewrite words_app, IH.
Qed.

Lemma words_of_nonempty (d : char) (inp : list str) :
  concat (map (words [d]) (filter nonempty inp))
  = concat (map (words [d]) inp).
Proof.
  induction inp as [|x inp IH]; [reflexivity|].
  destruct x; simpl; now rewrite IH.
Qed.

Lemma words_list (word_delimiter : str) (inp : list str) :
  word_delimiter <> [] ->
  call (ReduceToListOfListOfWords word_delimiter) (VStrs inp)
  = Ok (VList match inp with
              | [] => [VList []]
              | _ :: _ => map (fun s => VStrs (words word_delimiter s)) inp
              end).
Proof.
  intro Hd. rewrite call_strs. simpl process_list. rewrite on_strs_map.
  apply reduce_process_list_ok. intro s. now apply words_process_string.
Qed.

(** X13. Joining the sentences of a list and then reducing to words, with
    the same one-character delimiter, gives one token list: the token lists
    of the sentences one after the other. *)
Theorem join_then_words (d : char) (inp : list str) :
  Compose [ReduceToSingleSentence [d]; ReduceToListOfListOfWords [d]]
          (VStrs inp)
  = Ok (VTokens [concat (map (words [d]) inp)]).
Proof.
  rewrite Compose_cons, ReduceToSingleSentence_list. cbn [bind].
  rewrite <- words_of_nonempty.
  destruct (filter nonempty inp) as [|x l].
  - reflexivity.
  - rewrite <- words_join, Compose_cons, words_list by discriminate.
    reflexivity.
Qed.

(** ** RemovePunctuation *)

Lemma is_in_iff (c : char) (l : str) : is_in c l = true <-> In c l.
Proof.
  split; [apply is_in_In|].
  intro H. apply existsb_exists. exists c. split; [exact H|].
  apply N.eqb_refl.
Qed.

Lemma is_in_same (c : char) (l1 l2 : str) :
  (forall x, In x l1 <-> In x l2) -> is_in c l1 = is_in c l2.
Proof.
  intro H. destruct (is_in c l2) eqn:E.
  - apply is_in_iff, H, is_in_iff, E.
  - destruct (is_in c l1) eqn:E1; [|reflexivity].
    apply is_in_iff, H, is_in_iff in E1. congruence.
Qed.

Lemma RemovePunctuation_call (punctuation s : str) :
  call (RemovePunctuation punctuation) (VStr s)
  = Ok (VStr (filter (fun c => negb (is_in c punctuation)) s)).
Proof.
  rewrite call_str. unfold RemovePunctuation. simpl process_string.
  unfold BaseRemoveTransform_process_string.
  change (u "") with (@nil char). now rewrite remove_chars.
Qed.

(** X14. [RemovePunctuation] returns the input without the punctuation
    characters, so the order in which the set of punctuation characters is
    listed, and repeats in that list, make no difference. *)
Theorem RemovePunctuation_any_order (p1 p2 s : str) :
  (forall c, In c p1 <-> In c p2) ->
  call (RemovePunctuation p1) (VStr s)
  = Ok (VStr (filter (fun c => negb (is_in c p1)) s))
  /\ call (RemovePunctuation p2) (VStr s) = call (RemovePunctuation p1) (VStr s).
Proof.
  intro H. rewrite !RemovePunctuation_call. split; [reflexivity|].
  do 2 f_equal. apply filter_ext. intro c.
  now rewrite (is_in_same c p1 p2 H).
Qed.

(** ** ExpandCommonEnglishContractions on text without apostrophes *)

Lemma starts_with_incl (key s : str) (c : char) :
  starts_with key s = true -> In c key -> In c s.
Proof.
  revert s. induction key as [|x key IH]; intros s H Hc; [destruct Hc|].
  destruct s as [|y s]; [discriminate|].
  cbn [starts_with] in H. apply andb_true_iff in H as [Hxy Hk].
  apply N.eqb_eq in Hxy. subst y.
  destruct Hc as [<- | Hc]; [now left | right; now apply IH].
Qed.

Lemma replace_absent (key new s : str) (c : char) :
  In c key -> ~ In c s -> str_replace s key new = s.
Proof.
  intros Hk Hs. unfold str_replace.
  destruct key as [|x key]; [destruct Hk|].
  induction s as [|y s IH]; [reflexivity|].
  cbn [replace_scan].
  destruct (starts_with (x :: key) (y :: s)) eqn:E.
  - exfalso. apply Hs. now apply (starts_with_incl (x :: key)).
  - rewrite IH; [reflexivity|]. intro H. apply Hs. now right.
Qed.

Lemma expand_as_replace (isalnum : char -> bool) (s : str) :
  call (ExpandCommonEnglishContractions isalnum) (VStr s)
  = Ok (VStr (fold_left (fun s kv => str_replace s (fst kv) (snd kv))
                        contractions s)).
Proof.
  rewrite call_str.
  cbn [process_string ExpandCommonEnglishContractions derive].
  unfold ExpandCommonEnglishContractions_process_string, str_value.
  literal_sub isalnum (u "won't") (u "won't") (u "will not").
  literal_sub isalnum (u "can\'t") (u "can't") (u "can not").
  literal_sub isalnum (u "let\'s") (u "let's") (u "let us").
  literal_sub isalnum (u "n\'t") (u "n't") (u " not").
  literal_sub isalnum (u "\'re") (u "'re") (u " are").
  literal_sub isalnum (u "\'s") (u "'s") (u " is").
  literal_sub isalnum (u "\'d") (u "'d") (u " would").
  literal_sub isalnum (u "\'ll") (u "'ll") (u " will").
  literal_sub isalnum (u "\'t") (u "'t") (u " not").
  literal_sub isalnum (u "\'ve") (u "'ve") (u " have").
  literal_sub isalnum (u "\'m") (u "'m") (u " am").
  reflexivity.
Qed.

Lemma contractions_have_apostrophe :
  Forall (fun kv => In 39%N (fst kv)) contractions.
Proof.
  unfold contractions.
  repeat (apply Forall_cons; [apply is_in_iff; reflexivity|]).
  apply Forall_nil.
Qed.

(** X15. A string without an apostrophe comes back from the contraction
    expansion as it is. *)
Theorem expansion_needs_apostrophe (isalnum : char -> bool) (s : str) :
  ~ In 39%N s ->
  call (ExpandCommonEnglishContractions isalnum) (VStr s) = Ok (VStr s).
Proof.
  intro Hs. rewrite expand_as_replace. do 2 f_equal.
  pose proof contractions_have_apostrophe as H.
  induction H as [|kv l Hkv Hl IH]; [reflexivity|].
  cbn [fold_left]. now rewrite (replace_absent _ _ _ 39%N Hkv Hs).
Qed.

(** ** RemoveKaldiNonWords, further *)

Lemma kaldi_call (isalnum : char -> bool) (s : str) :
  call (RemoveKaldiNonWords isalnum) (VStr s) = Ok (VStr (remove_spans false s)).
Proof.
  rewrite call_str. cbn [process_string RemoveKaldiNonWords derive].
  unfold RemoveKaldiNonWords_process_string, str_value, re_sub.
  change (parse (u "[<\[][^>\]]*[>\]]")) with (Some kaldi_regex).
  change (template (u "")) with (Some (@nil char)).
  unfold sub. now rewrite (proj1 (kaldi_scan isalnum s)).
Qed.

Lemma remove_spans_cons (inside : bool) (c : char) (tl : str) :
  remove_spans inside (c :: tl)
  = if inside then remove_spans (negb (closer c)) tl
    else if opener c && existsb closer tl then remove_spans true tl
    else c :: remove_spans false tl.
Proof. reflexivity. Qed.

Lemma remove_spans_again (inside : bool) (s : str) :
  remove_spans false (remove_spans inside s) = remove_spans inside s.
Proof.
  revert inside. induction s as [|c s IH]; intro inside; [reflexivity|].
  rewrite remove_spans_cons. destruct inside; [apply IH|].
  destruct (opener c) eqn:Ho; cbn [andb].
  - destruct (existsb closer s) eqn:Hc; [apply IH|].
    rewrite (remove_spans_no_closer s Hc), remove_spans_cons, Ho, Hc.
    cbn [andb]. now rewrite (remove_spans_no_closer s Hc).
  - rewrite remove_spans_cons, Ho. cbn [andb]. now rewrite IH.
Qed.

Lemma remove_spans_length (inside : bool) (s : str) :
  length (remove_spans inside s) <= length s.
Proof.
  revert inside. induction s as [|c s IH]; intro inside; [reflexivity|].
  rewrite remove_spans_cons.
  pose proof (IH true) as Ht. pose proof (IH false) as Hf.
  pose proof (IH (negb (closer c))) as Hn.
  destruct inside; [cbn [length]; lia|].
  destruct (opener c && existsb closer s); cbn [length]; lia.
Qed.

(** X16. The bracketed-token removal is idempotent and never lengthens: its
    result is no longer than the input, and the removal returns that result
    unchanged. *)
Theorem RemoveKaldiNonWords_idempotent (isalnum : char -> bool) (s : str) :
  exists t,
    call (RemoveKaldiNonWords isalnum) (VStr s) = Ok (VStr t)
    /\ length t <= length s
    /\ call (RemoveKaldiNonWords isalnum) (VStr t) = Ok (VStr t).
Proof.
  exists (remove_spans false s). rewrite !kaldi_call.
  split; [reflexivity|]. split; [apply remove_spans_length|].
  now rewrite remove_spans_again.
Qed.

(** ** SubstituteWords on a single word *)

Section WordFacts.

Variable isalnum : char -> bool.

Abbreviation sub_scan := (sub_scan isalnum).
Abbreviation isword := (isword isalnum).

Lemma sub_scan_skip (r : regex) (repl : str) prev (a rest : str) :
  sub_scan r repl prev (a ++ rest) (length a)
  = sub_scan r repl (prev_after prev a) rest 0.
Proof.
  revert prev. induction a as [|c a IH]; intro prev; [reflexivity|].
  cbn [app length]. rewrite sub_scan_S. apply IH.
Qed.

Lemma prev_after_In (prev : option char) (key : str) :
  key <> [] -> exists w, prev_after prev key = Some w /\ In w key.
Proof.
  revert prev. induction key as [|x key IH]; intros prev Hk; [congruence|].
  destruct key as [|y key].
  - exists x. split; [reflexivity | now left].
  - destruct (IH (Some x)) as (w & Hw & Hin); [discriminate|].
    exists w. split; [exact Hw | now right].
Qed.

Lemma starts_with_nil (key : str) : key <> [] -> starts_with key [] = false.
Proof. now destruct key. Qed.

Lemma starts_with_refl (s : str) : starts_with s s = true.
Proof.
  induction s as [|c s IH]; [reflexivity|].
  cbn [starts_with]. unfold ceq. now rewrite N.eqb_refl.
Qed.

(** Inside a run of word characters the pattern of a key finds nothing. *)
Lemma word_scan_inside (key repl : str) (w : char) (s : str) :
  key <> [] -> isword w = true -> forallb isword s = true ->
  sub_scan (word_regex key) repl (Some w) s 0 = s.
Proof.
  intros Hk. revert w. induction s as [|c s IH]; intros w Hw Hs.
  - rewrite sub_scan_0, match_word.
    now rewrite (starts_with_nil key Hk), andb_false_r.
  - cbn [forallb] in Hs. apply andb_true_iff in Hs as [Hc Hs].
    rewrite sub_scan_0, match_word.
    unfold at_boundary at 1. cbn [word_at hd_error].
    fold (isword w) (isword c). rewrite Hw, Hc. cbn [xorb andb].
    now rewrite (IH c Hc Hs).
Qed.

Lemma word_scan_word (key repl s : str) :
  key <> [] -> forallb isword s = true ->
  sub isalnum (word_regex key) repl s = if str_eqb key s then repl else s.
Proof.
  intros Hk Hs. unfold sub.
  assert (Hneq : starts_with key s = false -> str_eqb key s = false).
  { intro H. destruct (str_eqb key s) eqn:E; [|reflexivity].
    apply str_eqb_eq in E. subst s. now rewrite starts_with_refl in H. }
  destruct s as [|c tl].
  - rewrite sub_scan_0, match_word.
    rewrite (starts_with_nil key Hk), andb_false_r.
    now rewrite (Hneq (starts_with_nil key Hk)).
  - pose proof Hs as Hall. cbn [forallb] in Hs.
    apply andb_true_iff in Hs as [Hc Htl].
    rewrite sub_scan_0, match_word.
    unfold at_boundary at 1. cbn [word_at hd_error]. fold (isword c).
    rewrite Hc. cbn [xorb andb].
    destruct (starts_with key (c :: tl)) eqn:Est; cbn [andb].
    2:{ rewrite (Hneq eq_refl). now rewrite word_scan_inside. }
    pose proof (starts_with_app _ _ Est) as Hsplit.
    destruct (prev_after_In None key Hk) as (w & Hw & Hin).
    assert (Hww : isword w = true).
    { rewrite forallb_forall in Hall. apply Hall.
      now apply (starts_with_incl key). }
    rewrite Hw. unfold at_boundary. cbn [word_at]. fold (isword w).
    rewrite Hww.
    destruct (skipn (length key) (c :: tl)) as [|y rest] eqn:Erest.
    + cbn [hd_error word_at xorb]. rewrite app_nil_r in Hsplit.
      destruct key as [|x key]; [congruence|].
      injection Hsplit as Hx Hkey. subst x key.
      cbn [length Nat.eqb andb].
      rewrite <- (app_nil_r tl) at 2. rewrite sub_scan_skip.
      rewrite sub_scan_0, match_word. cbn [starts_with andb].
      rewrite andb_false_r.
      rewrite (proj2 (str_eqb_eq (c :: tl) (c :: tl)) eq_refl).
      apply app_nil_r.
    + assert (Hy : isword y = true).
      { rewrite forallb_forall in Hall. apply Hall.
        rewrite Hsplit. apply in_or_app. right. now left. }
      cbn [hd_error word_at]. fold (isword y). rewrite Hy. cbn [xorb].
      rewrite word_scan_inside by assumption.
      destruct (str_eqb key (c :: tl)) eqn:E; [|reflexivity].
      apply str_eqb_eq in E. rewrite E in Hsplit.
      apply (f_equal (@length char)) in Hsplit.
      rewrite length_app in Hsplit. cbn [length] in Hsplit. lia.
Qed.

End WordFacts.

(** X17. Whole-word substitution replaces a word only as a whole: on a
    string made of word characters only, a non-empty key is replaced when it
    is the whole string and nothing happens otherwise. *)
Theorem SubstituteWords_whole_word (isalnum : char -> bool)
    (key value s : str) :
  key <> [] -> template value = Some value ->
  forallb (isword isalnum) s = true ->
  call (SubstituteWords isalnum [(key, value)]) (VStr s)
  = Ok (VStr (if str_eqb key s then value else s)).
Proof.
  intros Hk Hv Hs. rewrite call_str.
  cbn [process_string SubstituteWords derive]. unfold str_value.
  rewrite sub_each_words by (repeat constructor; exact Hv).
  cbn [fold_left fst snd bind]. now rewrite word_scan_word.
Qed.

(** ** RemoveSpecificWords with a word listed twice *)

Lemma dict_set_same (d : list (str * str)) (k v : str) :
  In k (map fst d) -> Forall (fun kv => snd kv = v) d -> dict_set d k v = d.
Proof.
  induction d as [|[k' v'] d IH]; intros Hin Hv; [destruct Hin|].
  inversion Hv as [|? ? Hv' Hd]; subst. cbn [snd] in *.
  cbn [dict_set]. destruct (str_eqb k' k) eqn:E; [reflexivity|].
  f_equal. apply IH; [|exact Hd].
  destruct Hin as [Hin | Hin]; [|exact Hin].
  cbn [fst] in Hin. subst k'.
  now rewrite (proj2 (str_eqb_eq k k) eq_refl) in E.
Qed.

Lemma dict_set_nodup (d : list (str * str)) (k v : str) :
  NoDup (map fst d) -> NoDup (map fst (dict_set d k v)).
Proof.
  induction d as [|[k' v'] d IH]; intro H; cbn [dict_set].
  - repeat constructor. intros [].
  - inversion H as [|? ? Hnot Hd]; subst.
    destruct (str_eqb k' k) eqn:E; [exact H|].
    cbn [map fst]. constructor; [|now apply IH].
    intro Hin. apply dict_set_keys in Hin as [-> | Hin]; [|now apply Hnot].
    now rewrite (proj2 (str_eqb_eq k k) eq_refl) in E.
Qed.

Lemma removal_mapping_nodup (words : list str) (d : list (str * str)) :
  NoDup (map fst d) ->
  NoDup (map fst (fold_left (fun d word => dict_set d word (u " ")) words d)).
Proof.
  revert d. induction words as [|x words IH]; intros d H; [exact H|].
  cbn [fold_left]. now apply IH, dict_set_nodup.
Qed.

Lemma removal_mapping_repeat (a b : list str) (w : str) :
  In w a -> removal_mapping (a ++ w :: b) = removal_mapping (a ++ b).
Proof.
  intro Hin. unfold removal_mapping. rewrite !fold_left_app.
  cbn [fold_left]. fold (removal_mapping a).
  rewrite dict_set_same; [reflexivity | | apply removal_mapping_values].
  now apply removal_mapping_keys.
Qed.

(** X18. The mapping built from the words to remove has every word once,
    and a word listed again changes neither the mapping nor the transform. *)
Theorem repeated_word_ignored (isalnum : char -> bool) (a b : list str)
    (w : str) :
  In w a ->
  NoDup (map fst (removal_mapping (a ++ w :: b)))
  /\ removal_mapping (a ++ w :: b) = removal_mapping (a ++ b)
  /\ forall s,
       call (RemoveSpecificWords isalnum (a ++ w :: b)) (VStr s)
       = call (RemoveSpecificWords isalnum (a ++ b)) (VStr s).
Proof.
  intro Hin. split; [|split].
  - apply removal_mapping_nodup. constructor.
  - now apply removal_mapping_repeat.
  - intro s. unfold RemoveSpecificWords.
    now rewrite removal_mapping_repeat.
Qed.

(** ** SubstituteRegexes with plain patterns *)

Lemma plain_not_special (c : char) :
  plain c = true ->
  ceq c 92 = false /\ ceq c 91 = false /\ ceq c 42 = false
  /\ ceq c 43 = false /\ is_in c other_meta = false.
Proof.
  unfold plain. intro H. apply negb_true_iff in H. repeat split;
    try (apply (is_in_false_neq c _ pattern_meta H); reflexivity).
  unfold pattern_meta, is_in in H. rewrite existsb_app in H.
  now apply orb_false_iff in H as [_ H].
Qed.

Lemma parse_plain (key : str) (acc : list atom) (rest : str) :
  forallb plain key = true ->
  parse_from (Top, acc) (key ++ rest)
  = parse_from (Top, rev (literal key) ++ acc) rest.
Proof.
  revert acc. induction key as [|c key IH]; intros acc H; [reflexivity|].
  cbn [forallb] in H. apply andb_true_iff in H as [Hc Hkey].
  apply plain_not_special in Hc as (H92 & H91 & H42 & H43 & Hm).
  cbn [literal map rev]. fold (literal key).
  rewrite <- app_assoc. cbn [app parse_from parse_step].
  rewrite H92, H91, H42, H43, Hm. now apply IH.
Qed.

Lemma parse_plain_pattern (key : str) :
  forallb plain key = true -> parse key = Some (literal key).
Proof.
  intro H. unfold parse. rewrite <- (app_nil_r key) at 1.
  rewrite parse_plain by exact H. cbn [parse_from fst snd].
  now rewrite app_nil_r, rev_involutive.
Qed.

(** The empty pattern matches before every character and at the end, as the
    empty string does for [str.replace]. *)
Lemma sub_empty (isalnum : char -> bool) (repl s : str) prev :
  Sre.sub_scan isalnum [] repl prev s 0 = str_replace s [] repl.
Proof.
  unfold str_replace. revert prev.
  induction s as [|c s IH]; intro prev; rewrite sub_scan_0.
  - cbn. now rewrite app_nil_r.
  - cbn [Sre.match_at Sre.match_here andb Nat.eqb flat_map].
    rewrite IH. reflexivity.
Qed.

Lemma re_sub_plain (isalnum : char -> bool) (key repl s : str) :
  forallb plain key = true -> template repl = Some repl ->
  re_sub isalnum key repl s = Ok (str_replace s key repl).
Proof.
  intros Hk Hr. destruct key as [|c key].
  - unfold re_sub. rewrite Hr. cbn [parse parse_from fst snd rev].
    unfold sub. now rewrite sub_empty.
  - apply re_sub_literal; [now apply parse_plain_pattern | discriminate
                          | exact Hr].
Qed.

(** X19. With patterns that hold no character special to [re], and
    replacements that hold no backslash, [SubstituteRegexes] is the chain
    of [str.replace] calls over its items, in their order. *)
Theorem SubstituteRegexes_plain (isalnum : char -> bool)
    (substitutions : list (str * str)) (s : str) :
  Forall (fun kv => forallb plain (fst kv) = true
                    /\ template (snd kv) = Some (snd kv)) substitutions ->
  call (SubstituteRegexes isalnum substitutions) (VStr s)
  = Ok (VStr (fold_left (fun s kv => str_replace s (fst kv) (snd kv))
                        substitutions s)).
Proof.
  intro H. rewrite call_str.
  cbn [process_string SubstituteRegexes derive]. unfold str_value, sub_each.
  revert s. induction H as [|[k v] l [Hk Hv] Hl IH]; intro s; [reflexivity|].
  cbn [fold_left bind fst snd] in *.
  rewrite re_sub_plain by assumption. apply IH.
Qed.

(** ** BaseRemoveTransform on strings that hold no token *)

Lemma replace_no_occurrence (old new s : str) :
  (forall a b, s <> a ++ old ++ b) -> str_replace s old new = s.
Proof.
  intro H. unfold str_replace. destruct old as [|x old].
  - exfalso. now apply (H [] s).
  - induction s as [|c s IH]; [reflexivity|].
    cbn [replace_scan].
    destruct (starts_with (x :: old) (c :: s)) eqn:E.
    + exfalso. apply starts_with_app in E.
      now apply (H [] (skipn (length (x :: old)) (c :: s))).
    + rewrite IH; [reflexivity|].
      intros a b Hab. apply (H (c :: a) b). now rewrite Hab.
Qed.

(** X20. A removal transform leaves a string in which none of its tokens
    occurs as it is, whatever the replacement token. *)
Theorem BaseRemoveTransform_no_occurrence (tokens_to_remove : list str)
    (replace_token s : str) :
  Forall (fun w => forall a b, s <> a ++ w ++ b) tokens_to_remove ->
  call (BaseRemoveTransform tokens_to_remove replace_token) (VStr s)
  = Ok (VStr s).
Proof.
  intro H. rewrite call_str. simpl process_string.
  unfold BaseRemoveTransform_process_string. do 2 f_equal.
  induction H as [|w l Hw Hl IH]; [reflexivity|].
  cbn [fold_left]. now rewrite (replace_no_occurrence w replace_token s Hw).
Qed.

(** ** ReduceToListOfListOfWords at the edges *)

Lemma VTokens_one_inj (a b : list str) : VTokens [a] = VTokens [b] -> a = b.
Proof.
  unfold VTokens, VStrs. cbn [map]. intro H. injection H as H.
  revert b H. induction a as [|x a IH]; intros [|y b] H;
    try discriminate; [reflexivity|].
  cbn [map] in H. injection H as -> H. f_equal. now apply IH.
Qed.

Lemma filter_negb_nil {A} (g : A -> bool) (l : list A) :
  filter (fun x => negb (g x)) l = [] <-> forallb g l = true.
Proof.
  induction l as [|x l IH]; simpl; [tauto|].
  destruct (g x); simpl; [exact IH | split; discriminate].
Qed.

(** X21. With a one-character delimiter the word reduction returns an empty
    token list exactly for the sentences that hold nothing but delimiters
    (the empty sentence among them). *)
Theorem words_empty_iff (d : char) (s : str) :
  call (ReduceToListOfListOfWords [d]) (VStr s) = Ok (VTokens [[]])
  <-> forallb (fun c => ceq c d) s = true.
Proof.
  assert (Hcall : call (ReduceToListOfListOfWords [d]) (VStr s)
                  = Ok (VTokens [words [d] s])) by reflexivity.
  assert (Hconcat : concat (words [d] s)
                    = filter (fun c => negb (ceq c d)) s).
  { unfold words. now rewrite concat_filter_nonempty, split_char_concat. }
  rewrite Hcall. split.
  - intro H0.
    assert (H : VTokens [words [d] s] = VTokens [[]]) by congruence.
    apply VTokens_one_inj in H. rewrite H in Hconcat. symmetry in Hconcat.
    now apply filter_negb_nil in Hconcat.
  - intro H. do 2 f_equal.
    apply filter_negb_nil in H. rewrite H in Hconcat.
    destruct (words [d] s) as [|w l] eqn:E; [reflexivity|].
    pose proof (words_nonempty [d] s) as Hne. rewrite E in Hne.
    inversion Hne as [|? ? Hw _]; subst.
    destruct w; [congruence | discriminate].
Qed.

Lemma thread_raise {A B} (f : outcome A -> B -> outcome A) (l : list B)
    (e : exn) :
  (forall b, f (Raise e) b = Raise e) -> fold_left f l (Raise e) = Raise e.
Proof.
  intro H. induction l as [|b l IH]; [reflexivity|].
  cbn [fold_left]. now rewrite H.
Qed.

(** X22. With the empty delimiter the word reduction raises [ValueError] on
    every string and on every non-empty list of strings, and still returns
    the list holding one empty token list on the empty list. *)
Theorem empty_delimiter_raises :
  (forall s, call (ReduceToListOfListOfWords []) (VStr s) = Raise ValueError)
  /\ (forall s inp,
        call (ReduceToListOfListOfWords []) (VStrs (s :: inp))
        = Raise ValueError)
  /\ call (ReduceToListOfListOfWords []) (VStrs []) = Ok (VTokens [[]]).
Proof.
  split; [reflexivity|]. split; [|reflexivity].
  intros s inp. rewrite call_strs.
  cbn [process_list ReduceToListOfListOfWords]. rewrite on_strs_map.
  unfold reduce_process_list, collect_sentences. cbn [fold_left bind].
  change (ReduceToListOfListOfWords_process_string [] s)
    with (@Raise value ValueError). cbn [bind].
  now rewrite thread_raise.
Qed.

(** ** SubstituteWords with the empty key *)

Lemma match_empty_key (isalnum : char -> bool) adv prev (s : str) :
  match_at isalnum (word_regex []) adv prev s
  = if at_boundary isalnum prev s then if adv then None else Some 0
    else None.
Proof.
  rewrite match_word.
  cbn [starts_with prev_after fold_left length skipn Nat.eqb].
  destruct (at_boundary isalnum prev s); [|reflexivity].
  now destruct adv.
Qed.

Lemma empty_key_inside (isalnum : char -> bool) (repl : str) (w : char)
    (s : str) :
  isword isalnum w = true -> forallb (isword isalnum) s = true ->
  Sre.sub_scan isalnum (word_regex []) repl (Some w) s 0 = s ++ repl.
Proof.
  revert w. induction s as [|c s IH]; intros w Hw Hs.
  - rewrite sub_scan_0, !match_empty_key.
    unfold at_boundary. cbn [word_at hd_error]. rewrite Hw.
    cbn [xorb app]. apply app_nil_r.
  - cbn [forallb] in Hs. apply andb_true_iff in Hs as [Hc Hs].
    rewrite sub_scan_0, !match_empty_key.
    unfold at_boundary. cbn [word_at hd_error]. rewrite Hw, Hc.
    cbn [xorb app]. now rewrite (IH c Hc Hs).
Qed.

(** X23. The empty key is not ignored: on a non-empty string made of word
    characters only, whole-word substitution puts the replacement before and
    after the string (the two word boundaries); the empty string is left as
    it is. *)
Theorem SubstituteWords_empty_key (isalnum : char -> bool) (value s : str) :
  template value = Some value -> forallb (isword isalnum) s = true ->
  call (SubstituteWords isalnum [([], value)]) (VStr s)
  = Ok (VStr match s with [] => [] | _ :: _ => value ++ s ++ value end).
Proof.
  intros Hv Hs. rewrite call_str.
  cbn [process_string SubstituteWords derive]. unfold str_value.
  rewrite sub_each_words by (repeat constructor; exact Hv).
  cbn [fold_left fst snd bind]. do 2 f_equal. unfold sub.
  destruct s as [|c s].
  - now rewrite sub_scan_0, match_empty_key.
  - cbn [forallb] in Hs. apply andb_true_iff in Hs as [Hc Hs].
    rewrite sub_scan_0, !match_empty_key.
    unfold at_boundary. cbn [word_at hd_error]. rewrite Hc. cbn [xorb].
    now rewrite (empty_key_inside isalnum value c s Hc Hs).
Qed.

(** ** The further statements at concrete inputs *)

Lemma Compose_raises_witness :
  Compose [Strip] (VStr (u " a")) = Ok (VStr (u "a"))
  /\ call (ReduceToListOfListOfWords []) (VStr (u "a")) = Raise ValueError
  /\ Compose ([Strip] ++ ReduceToListOfListOfWords [] :: [Strip])
       (VStr (u " a"))
     = Raise ValueError.
Proof.
  split; [reflexivity|]. split; [reflexivity|].
  apply (Compose_raises [Strip] [Strip] (ReduceToListOfListOfWords [])
           (VStr (u " a")) (VStr (u "a")) ValueError); reflexivity.
Defined.

Lemma per_element_keeps_count_witness :
  per_element Strip
  /\ call Strip (VStrs [u " a"; u "b "]) = Ok (VStrs [u "a"; u "b"])
  /\ exists out, VStrs [u "a"; u "b"] = VList out /\ length out = 2.
Proof.
  assert (Hdef : per_element Strip) by (intro inp; reflexivity).
  split; [exact Hdef|]. split; [reflexivity|].
  apply (per_element_keeps_count Strip [u " a"; u "b "]
           (VStrs [u "a"; u "b"]) Hdef).
  reflexivity.
Defined.

Lemma Compose_per_element_witness :
  Forall (fun t => per_element t /\ str_transform t)
         [Strip; RemoveWhiteSpace true]
  /\ Compose [Strip; RemoveWhiteSpace true] (VStrs [u " a"; u "b c"])
     = (vs <- for_each
                (fun s => Compose [Strip; RemoveWhiteSpace true] (VStr s))
                [u " a"; u "b c"] ;;
        Ok (VList vs)).
Proof.
  assert (H : Forall (fun t => per_element t /\ str_transform t)
                     [Strip; RemoveWhiteSpace true]).
  { apply Forall_cons; [split|apply Forall_cons; [split|apply Forall_nil]].
    - intro inp. reflexivity.
    - intro s. eexists. reflexivity.
    - intro inp. reflexivity.
    - intro s. eexists. reflexivity. }
  split; [exact H|].
  apply (Compose_per_element [Strip; RemoveWhiteSpace true]
           [u " a"; u "b c"] H).
Defined.

Lemma Strip_middle_witness :
  trimmed (u "a b") = true
  /\ call Strip (VStr (u "a b")) = Ok (VStr (u "a b")).
Proof.
  split; [reflexivity|].
  apply (proj2 (Strip_middle (u "a b"))). reflexivity.
Defined.

Lemma RemoveMultipleSpaces_sparse_witness :
  sparse (u "a b") = true
  /\ call (RemoveMultipleSpaces ascii_alnum) (VStr (u "a b"))
     = Ok (VStr (u "a b")).
Proof.
  split; [reflexivity|].
  destruct (RemoveMultipleSpaces_sparse ascii_alnum (u "a b"))
    as (t & Hcall & _ & _ & Hfix).
  rewrite Hcall. do 2 f_equal. apply Hfix. reflexivity.
Defined.

Lemma RemovePunctuation_any_order_witness :
  (forall c, In c (u "!.") <-> In c (u ".!!"))
  /\ call (RemovePunctuation (u ".!!")) (VStr (u "hi. there!"))
     = call (RemovePunctuation (u "!.")) (VStr (u "hi. there!")).
Proof.
  assert (H : forall c, In c (u "!.") <-> In c (u ".!!")).
  { intro c. simpl. tauto. }
  split; [exact H|].
  apply (RemovePunctuation_any_order (u "!.") (u ".!!") (u "hi. there!") H).
Defined.

Lemma expansion_needs_apostrophe_witness :
  ~ In 39%N (u "hello world")
  /\ call (ExpandCommonEnglishContractions ascii_alnum) (VStr (u "hello world"))
     = Ok (VStr (u "hello world")).
Proof.
  assert (H : ~ In 39%N (u "hello world")).
  { intro H. apply is_in_iff in H. discriminate H. }
  split; [exact H|].
  apply (expansion_needs_apostrophe ascii_alnum (u "hello world") H).
Defined.

Lemma SubstituteWords_whole_word_witness :
  u "the" <> [] /\ template (u " ") = Some (u " ")
  /\ forallb (isword ascii_alnum) (u "other") = true
  /\ call (SubstituteWords ascii_alnum [(u "the", u " ")]) (VStr (u "other"))
     = Ok (VStr (u "other")).
Proof.
  assert (Hk : u "the" <> []) by discriminate.
  split; [exact Hk|]. split; [reflexivity|]. split; [reflexivity|].
  apply (SubstituteWords_whole_word ascii_alnum (u "the") (u " ") (u "other")
           Hk eq_refl eq_refl).
Defined.

Lemma repeated_word_ignored_witness :
  In (u "the") [u "a"; u "the"]
  /\ removal_mapping ([u "a"; u "the"] ++ u "the" :: [u "an"])
     = removal_mapping ([u "a"; u "the"] ++ [u "an"]).
Proof.
  assert (H : In (u "the") [u "a"; u "the"]) by (right; left; reflexivity).
  split; [exact H|].
  apply (repeated_word_ignored ascii_alnum [u "a"; u "the"] [u "an"]
           (u "the") H).
Defined.

Lemma SubstituteRegexes_plain_witness :
  Forall (fun kv => forallb plain (fst kv) = true
                    /\ template (snd kv) = Some (snd kv))
         [(u "uh", u ""); (u "  ", u " ")]
  /\ call (SubstituteRegexes ascii_alnum [(u "uh", u ""); (u "  ", u " ")])
       (VStr (u "a uh b"))
     = Ok (VStr (u "a b")).
Proof.
  assert (H : Forall (fun kv => forallb plain (fst kv) = true
                                /\ template (snd kv) = Some (snd kv))
                     [(u "uh", u ""); (u "  ", u " ")]).
  { apply Forall_cons; [split; reflexivity|].
    apply Forall_cons; [split; reflexivity | apply Forall_nil]. }
  split; [exact H|].
  apply (SubstituteRegexes_plain ascii_alnum
           [(u "uh", u ""); (u "  ", u " ")] (u "a uh b") H).
Defined.

Lemma BaseRemoveTransform_no_occurrence_witness :
  Forall (fun w => forall a b, u "ab" <> a ++ w ++ b) [u "c"]
  /\ call (BaseRemoveTransform [u "c"] (u " ")) (VStr (u "ab"))
     = Ok (VStr (u "ab")).
Proof.
  assert (H : Forall (fun w => forall a b, u "ab" <> a ++ w ++ b) [u "c"]).
  { apply Forall_cons; [|apply Forall_nil]. intros a b Hab.
    assert (Hin : In 99%N (u "ab")).
    { rewrite Hab. apply in_or_app. right. now left. }
    apply is_in_iff in Hin. discriminate Hin. }
  split; [exact H|].
  apply (BaseRemoveTransform_no_occurrence [u "c"] (u " ") (u "ab") H).
Defined.

Lemma words_empty_iff_witness :
  forallb (fun c => ceq c 32) (u "   ") = true
  /\ call (ReduceToListOfListOfWords (u " ")) (VStr (u "   "))
     = Ok (VTokens [[]]).
Proof.
  split; [reflexivity|].
  apply (proj2 (words_empty_iff 32%N (u "   "))). reflexivity.
Defined.

Lemma SubstituteWords_empty_key_witness :
  template (u "-") = Some (u "-")
  /\ forallb (isword ascii_alnum) (u "ab") = true
  /\ call (SubstituteWords ascii_alnum [([], u "-")]) (VStr (u "ab"))
     = Ok (VStr (u "-ab-")).
Proof.
  split; [reflexivity|]. split; [reflexivity|].
  apply (SubstituteWords_empty_key ascii_alnum (u "-") (u "ab")
           eq_refl eq_refl).
Defined.

(** ** Whole-word substitution of a key made of word characters *)

Lemma take_while_app (p : char -> bool) (a b : str) :
  forallb p a = true -> take_while p (a ++ b) = a ++ take_while p b.
Proof.
  induction a as [|c a IH]; simpl; [reflexivity|].
  intro H. apply andb_true_iff in H as [Hc Ha]. rewrite Hc. now rewrite IH.
Qed.

Lemma take_while_prefix (p : char -> bool) (s : str) :
  starts_with (take_while p s) s = true.
Proof.
  induction s as [|c s IH]; [reflexivity|].
  cbn [take_while]. destruct (p c); [|reflexivity].
  cbn [starts_with]. unfold ceq. now rewrite N.eqb_refl.
Qed.

Lemma str_eqb_app_cons (key : str) (y : char) (r : str) :
  str_eqb key (key ++ y :: r) = false.
Proof.
  destruct (str_eqb key (key ++ y :: r)) eqn:E; [|reflexivity].
  apply str_eqb_eq in E. apply (f_equal (@length char)) in E.
  rewrite length_app in E. cbn [length] in E. lia.
Qed.

Section WholeWords.

Variable isalnum : char -> bool.
Variables key value : str.
Hypothesis key_not_empty : key <> [].
Hypothesis key_of_word_chars : forallb (isword isalnum) key = true.

Abbreviation isw := (isword isalnum).
Abbreviation match_at := (match_at isalnum (word_regex key)).
Abbreviation sub_scan := (sub_scan isalnum (word_regex key) value).
Abbreviation R := (replace_whole_words (isword isalnum) key value).

Lemma emit_nil : emit_word key value [] = [].
Proof. unfold emit_word. now destruct key. Qed.

Lemma whole_words_run (s cur : str) :
  R cur s
  = emit_word key value (cur ++ take_while isw s) ++ R [] (drop_while isw s).
Proof.
  revert cur. induction s as [|c s IH]; intro cur.
  - cbn. now rewrite emit_nil, !app_nil_r.
  - cbn [replace_whole_words take_while drop_while].
    destruct (isw c) eqn:Hc.
    + rewrite IH, <- app_assoc. reflexivity.
    + cbn [replace_whole_words]. rewrite Hc, app_nil_r.
      now rewrite emit_nil.
Qed.

Lemma starts_with_nonword (c : char) (tl : str) :
  isw c = false -> starts_with key (c :: tl) = false.
Proof.
  intro Hc. destruct key as [|x k] eqn:E; [congruence|].
  cbn [forallb] in key_of_word_chars.
  apply andb_true_iff in key_of_word_chars as [Hx _].
  cbn [starts_with]. destruct (ceq x c) eqn:Exc; [|reflexivity].
  apply N.eqb_eq in Exc. subst c. congruence.
Qed.

Lemma match_at_end adv prev : match_at adv prev [] = None.
Proof.
  rewrite match_word, (starts_with_nil key key_not_empty).
  now rewrite andb_false_r.
Qed.

Lemma match_at_nonword adv prev (c : char) (tl : str) :
  isw c = false -> match_at adv prev (c :: tl) = None.
Proof.
  intro Hc. rewrite match_word, (starts_with_nonword c tl Hc).
  now rewrite andb_false_r.
Qed.

Lemma match_inside_word adv (w c : char) (tl : str) :
  isw w = true -> isw c = true -> match_at adv (Some w) (c :: tl) = None.
Proof.
  intros Hw Hc. rewrite match_word.
  unfold at_boundary at 1. cbn [word_at hd_error]. now rewrite Hw, Hc.
Qed.

(** At the start of a run of word characters the key matches exactly when
    it is the whole run. *)
Lemma match_at_run_start adv prev (c : char) (tl : str) :
  word_at isalnum prev = false -> isw c = true ->
  match_at adv prev (c :: tl)
  = if str_eqb key (c :: take_while isw tl)
    then Some (S (length (take_while isw tl)))
    else None.
Proof.
  intros Hprev Hc.
  assert (Hrun : take_while isw (c :: tl) = c :: take_while isw tl)
    by (cbn [take_while]; now rewrite Hc).
  rewrite <- Hrun.
  assert (Hlen : str_eqb key (take_while isw (c :: tl)) = true ->
                 length key = S (length (take_while isw tl))).
  { intro E. apply str_eqb_eq in E. now rewrite E, Hrun. }
  rewrite match_word.
  unfold at_boundary at 1. cbn [word_at hd_error]. rewrite Hprev, Hc.
  cbn [xorb andb].
  destruct (starts_with key (c :: tl)) eqn:Est; cbn [andb].
  - pose proof (starts_with_app _ _ Est) as Hsplit.
    destruct (prev_after_In prev key key_not_empty) as (w & Hw & Hin).
    assert (Hww : isw w = true).
    { rewrite forallb_forall in key_of_word_chars.
      now apply key_of_word_chars. }
    rewrite Hw. unfold at_boundary. cbn [word_at]. rewrite Hww.
    assert (Hne : (length key =? 0) = false).
    { destruct key; [congruence | reflexivity]. }
    rewrite Hne, andb_false_r.
    remember (skipn (length key) (c :: tl)) as rest eqn:Erest.
    assert (Etw : take_while isw (c :: tl) = key ++ take_while isw rest).
    { rewrite Hsplit. apply take_while_app. exact key_of_word_chars. }
    rewrite Etw in Hlen |- *.
    pose proof (proj2 (str_eqb_eq key key) eq_refl) as Hrefl.
    destruct rest as [|y r].
    + cbn [hd_error word_at xorb take_while] in Hlen |- *.
      rewrite app_nil_r in Hlen |- *. rewrite Hrefl in Hlen |- *.
      f_equal. now apply Hlen.
    + cbn [hd_error word_at take_while] in Hlen |- *.
      destruct (isw y); cbn [xorb].
      * now rewrite str_eqb_app_cons.
      * rewrite app_nil_r in Hlen |- *. rewrite Hrefl in Hlen |- *.
        f_equal. now apply Hlen.
  - destruct (str_eqb key (take_while isw (c :: tl))) eqn:E; [|reflexivity].
    apply str_eqb_eq in E.
    pose proof (take_while_prefix isw (c :: tl)) as Hp.
    rewrite <- E in Hp. congruence.
Qed.

Lemma whole_word_scan (s : str) :
  (forall prev,
      word_at isalnum prev = false \/ word_at isalnum (hd_error s) = false ->
      sub_scan prev s 0 = R [] s)
  /\ (forall w, isw w = true ->
        sub_scan (Some w) s 0
        = take_while isw s ++ R [] (drop_while isw s))
  /\ (forall prev,
        sub_scan prev s (length (take_while isw s))
        = R [] (drop_while isw s)).
Proof.
  induction s as [|c tl (IH1 & IH2 & IH3)].
  - assert (H : forall prev, sub_scan prev [] 0 = R [] []).
    { intro prev. rewrite sub_scan_0, match_at_end. cbn.
      now rewrite emit_nil. }
    split; [intros prev _; apply H|]. split; [intros w _|intro prev]; apply H.
  - assert (H1 : forall prev,
               word_at isalnum prev = false
               \/ word_at isalnum (hd_error (c :: tl)) = false ->
               sub_scan prev (c :: tl) 0 = R [] (c :: tl)).
    { intros prev Hor. cbn [hd_error word_at] in Hor.
      destruct (isw c) eqn:Hc.
      - destruct Hor as [Hprev | Hor]; [|congruence].
        rewrite sub_scan_0, match_at_run_start by assumption.
        rewrite whole_words_run. cbn [take_while drop_while app].
        rewrite Hc. unfold emit_word.
        destruct (str_eqb key (c :: take_while isw tl)).
        + now rewrite IH3.
        + rewrite (IH2 c Hc). reflexivity.
      - rewrite sub_scan_0, match_at_nonword by assumption.
        rewrite IH1 by (left; exact Hc).
        cbn [replace_whole_words]. rewrite Hc. now rewrite emit_nil. }
    split; [exact H1|]. split.
    + intros w Hw. cbn [take_while drop_while].
      destruct (isw c) eqn:Hc.
      * rewrite sub_scan_0, match_inside_word by assumption.
        now rewrite (IH2 c Hc).
      * rewrite H1; [reflexivity|]. right. exact Hc.
    + intro prev. cbn [take_while drop_while].
      destruct (isw c) eqn:Hc.
      * cbn [length]. rewrite sub_scan_S. apply IH3.
      * cbn [length]. apply H1. right. exact Hc.
Qed.

Lemma sub_whole_words (s : str) :
  sub isalnum (word_regex key) value s = R [] s.
Proof. unfold sub. apply whole_word_scan. now left. Qed.

End WholeWords.



